(** * evo-to-base64: the media utilities of [src/utils/crypto-utils.js]

    A shallow embedding of the six functions exported by
    [src/utils/crypto-utils.js] together with the part of the Node.js
    runtime they call ([Buffer], [ArrayBuffer] and the [crypto] module),
    and the properties of these functions that the specification states.

    Conventions.
    - A [Buffer] (and every [Uint8Array] view) is a [list byte].
    - A JavaScript string is a [string] holding its UTF-8 bytes. A
      function of the runtime that works on the UTF-16 code units of a
      string, as the base64 decoder does, gets them from these bytes.
    - JavaScript is dynamically typed: the values that reach the runtime
      are of type [value], and a runtime function that inspects the kind
      of its argument does so by pattern matching on it.
    - A call that may throw lives in the monad [M], which also records the
      calls made to the [crypto] module, in order. *)

From Stdlib Require Import Strings.Byte Strings.Ascii Strings.String.
From Stdlib Require Import ZArith NArith Lia Bool Arith List Btauto.
Import ListNotations.

Local Open Scope string_scope.
Local Open Scope list_scope.

(* ===================================================================== *)
(** * Bytes *)
(* ===================================================================== *)

Module Bytes.

Definition Buffer := list byte.

Definition byte_of_N (n : N) : byte :=
  match Byte.of_N (n mod 256) with
  | Some b => b
  | None => x00
  end.

Definition byte_of_Z (z : Z) : byte := byte_of_N (Z.to_N (z mod 256)).

Definition Z_of_byte (b : byte) : Z := Z.of_N (Byte.to_N b).

Definition byte_of_ascii (c : ascii) : byte := byte_of_N (N_of_ascii c).

(** The bytes of a string ([Buffer.from(str)], for 8-bit text). *)
Definition bytes_of_string (s : string) : Buffer :=
  map byte_of_ascii (list_ascii_of_string s).

Definition bytes_eqb (a b : Buffer) : bool :=
  if list_eq_dec Byte.byte_eq_dec a b then true else false.

(** ** Checking a property of bytes by running through all 256 of them *)

Definition all_bytes : list byte :=
  map (fun n => byte_of_N (N.of_nat n)) (seq 0 256).

(** ** [slice]

    [Buffer.prototype.slice(start, end)] and
    [ArrayBuffer.prototype.slice(begin, end)] share their index
    arithmetic: a negative index counts from the end, every index is
    clamped to the length, and an empty range gives an empty result.
    [None] stands for an omitted [end]. *)

Definition clamp_index (len i : Z) : Z :=
  if (i <? 0)%Z then Z.max (len + i) 0 else Z.min i len.

Definition slice (b : Buffer) (start : Z) (end_ : option Z) : Buffer :=
  let len := Z.of_nat (length b) in
  let s := clamp_index len start in
  let e := match end_ with Some e => clamp_index len e | None => len end in
  firstn (Z.to_nat (e - s)) (skipn (Z.to_nat s) b).

End Bytes.
Import Bytes.


(* ===================================================================== *)
(** * Base64, as Node.js reads and writes it *)
(* ===================================================================== *)

Module Base64.

Local Open Scope N_scope.

(** ** Decoding: [Buffer.from(str, 'base64')]

    Node's decoder is lenient. The low byte of each code unit of the
    string is looked up in a table that knows the standard alphabet and
    the URL-safe one; a byte outside the table is skipped, an ['='] ends
    the decoding, and the bytes are produced as soon as their bits are
    complete, so that a trailing group of two or three characters gives
    one or two bytes and a lone trailing character gives none. *)

Definition unbase64 (c : ascii) : option N :=
  let n := N_of_ascii c in
  if (65 <=? n) && (n <=? 90) then Some (n - 65)          (* A-Z *)
  else if (97 <=? n) && (n <=? 122) then Some (n - 71)    (* a-z *)
  else if (48 <=? n) && (n <=? 57) then Some (n + 4)      (* 0-9 *)
  else if (n =? 43) || (n =? 45) then Some 62             (* + - *)
  else if (n =? 47) || (n =? 95) then Some 63             (* / _ *)
  else None.

(** Where the decoder stands inside a group of four characters; [hi] is
    the value of the previous character. *)
Inductive phase :=
| Group0
| Group1 (hi : N)
| Group2 (hi : N)
| Group3 (hi : N).

Definition byte1 (hi lo : N) : byte :=
  byte_of_N (N.lor (N.shiftl (N.land hi 63) 2) (N.shiftr (N.land lo 48) 4)).
Definition byte2 (hi lo : N) : byte :=
  byte_of_N (N.lor (N.shiftl (N.land hi 15) 4) (N.shiftr (N.land lo 60) 2)).
Definition byte3 (hi lo : N) : byte :=
  byte_of_N (N.lor (N.shiftl (N.land hi 3) 6) (N.land lo 63)).

Fixpoint decode_from (ph : phase) (s : string) : Buffer :=
  match s with
  | EmptyString => []
  | String c rest =>
      match unbase64 c with
      | None =>
          if Ascii.eqb c "="%char then [] else decode_from ph rest
      | Some lo =>
          match ph with
          | Group0 => decode_from (Group1 lo) rest
          | Group1 hi => byte1 hi lo :: decode_from (Group2 lo) rest
          | Group2 hi => byte2 hi lo :: decode_from (Group3 lo) rest
          | Group3 hi => byte3 hi lo :: decode_from Group0 rest
          end
      end
  end.

(** *** What the decoder is given

    A string is held here by its UTF-8 bytes, and the decoder works on its
    UTF-16 code units, of which it reads the low byte only: the character
    U+0141, whose low byte is 41, is read as the letter A, and the first
    half of a surrogate pair D83D is read as ['=']. A byte that begins no
    character is read as U+FFFD. *)

Fixpoint code_points (bs : list N) : list N :=
  match bs with
  | [] => []
  | b0 :: rest =>
      if b0 <? 128 then b0 :: code_points rest
      else if (192 <=? b0) && (b0 <? 224) then
        match rest with
        | b1 :: rest1 =>
            ((b0 - 192) * 64 + b1 mod 64) :: code_points rest1
        | _ => [65533]
        end
      else if (224 <=? b0) && (b0 <? 240) then
        match rest with
        | b1 :: b2 :: rest2 =>
            ((b0 - 224) * 4096 + (b1 mod 64) * 64 + b2 mod 64)
            :: code_points rest2
        | _ => [65533]
        end
      else if (240 <=? b0) && (b0 <? 248) then
        match rest with
        | b1 :: b2 :: b3 :: rest3 =>
            ((b0 - 240) * 262144 + (b1 mod 64) * 4096 + (b2 mod 64) * 64
             + b3 mod 64)
            :: code_points rest3
        | _ => [65533]
        end
      else 65533 :: code_points rest
  end.

(** A code point above U+FFFF is a surrogate pair. *)
Definition utf16 (cp : N) : list N :=
  if cp <? 65536 then [cp]
  else [55296 + (cp - 65536) / 1024; 56320 + (cp - 65536) mod 1024].

Definition code_units (s : string) : list N :=
  flat_map utf16 (code_points (map N_of_ascii (list_ascii_of_string s))).

Definition low_bytes (s : string) : string :=
  string_of_list_ascii (map (fun u => ascii_of_N (u mod 256)) (code_units s)).

(** A string of ASCII characters: its code units are its bytes. *)
Definition plain (s : string) : bool :=
  forallb (fun c => N_of_ascii c <? 128) (list_ascii_of_string s).

Definition decode (s : string) : Buffer := decode_from Group0 (low_bytes s).

(** ** Encoding: [buf.toString('base64')] and [hash.digest('base64')]

    The standard alphabet, with ['='] padding. *)

Definition alphabet : string :=
  "ABCDEFGHIJKLMNOPQRSTUVWXYZabcdefghijklmnopqrstuvwxyz0123456789+/".

Definition base64_char (n : N) : ascii :=
  match String.get (N.to_nat n) alphabet with
  | Some c => c
  | None => "="%char
  end.

Definition sextet1 (a : byte) : N := N.shiftr (Byte.to_N a) 2.
Definition sextet2 (a b : byte) : N :=
  N.lor (N.shiftl (N.land (Byte.to_N a) 3) 4) (N.shiftr (Byte.to_N b) 4).
Definition sextet3 (b c : byte) : N :=
  N.lor (N.shiftl (N.land (Byte.to_N b) 15) 2) (N.shiftr (Byte.to_N c) 6).
Definition sextet4 (c : byte) : N := N.land (Byte.to_N c) 63.

Fixpoint encode (buf : Buffer) : string :=
  match buf with
  | [] => EmptyString
  | [a] =>
      String (base64_char (sextet1 a))
        (String (base64_char (sextet2 a x00)) "==")
  | [a; b] =>
      String (base64_char (sextet1 a))
        (String (base64_char (sextet2 a b))
           (String (base64_char (sextet3 b x00)) "="))
  | a :: b :: c :: rest =>
      String (base64_char (sextet1 a))
        (String (base64_char (sextet2 a b))
           (String (base64_char (sextet3 b c))
              (String (base64_char (sextet4 c)) (encode rest))))
  end.

(** ** Characters the decoder passes over

    [foreign c]: [c] is neither in the decoder's table nor the ['='] that
    ends the decoding. [strip s] is [s] without its foreign characters. *)

Definition foreign (c : ascii) : bool :=
  match unbase64 c with
  | Some _ => false
  | None => negb (Ascii.eqb c "="%char)
  end.

Fixpoint strip (s : string) : string :=
  match s with
  | EmptyString => EmptyString
  | String c rest => if foreign c then strip rest else String c (strip rest)
  end.

(** The number of characters that the decoder reads as data: those of its
    table that come before the first ['=']. *)
Fixpoint symbols (s : string) : nat :=
  match s with
  | EmptyString => O
  | String c rest =>
      match unbase64 c with
      | Some _ => S (symbols rest)
      | None => if Ascii.eqb c "="%char then O else symbols rest
      end
  end.

(** How many characters of its group of four the decoder has read. *)
Definition phase_index (ph : phase) : nat :=
  match ph with
  | Group0 => 0
  | Group1 _ => 1
  | Group2 _ => 2
  | Group3 _ => 3
  end.

(** A string is canonical base64 when it is the encoding of some bytes. *)
Definition canonical (s : string) : Prop := exists buf, s = encode buf.

End Base64.

(* ===================================================================== *)
(** * SHA-256, HMAC-SHA256 and HKDF-SHA256

    The three primitives behind [crypto.createHash('sha256')],
    [crypto.createHmac('sha256', key)] and [crypto.hkdfSync('sha256', ...)]:
    FIPS 180-4, RFC 2104 and RFC 5869. Words are 32-bit integers in [Z]
    with the wrap-around written out. *)
(* ===================================================================== *)

Module SHA256.

Local Open Scope Z_scope.

Definition w32 (x : Z) : Z := x mod 4294967296.
Definition add32 (x y : Z) : Z := w32 (x + y).
Definition rotr (n x : Z) : Z :=
  Z.lor (Z.shiftr x n) (w32 (Z.shiftl x (32 - n))).
Definition shr (n x : Z) : Z := Z.shiftr x n.

Definition Ch (x y z : Z) : Z :=
  Z.lxor (Z.land x y) (Z.land (w32 (Z.lnot x)) z).
Definition Maj (x y z : Z) : Z :=
  Z.lxor (Z.lxor (Z.land x y) (Z.land x z)) (Z.land y z).
Definition Sigma0 (x : Z) : Z :=
  Z.lxor (Z.lxor (rotr 2 x) (rotr 13 x)) (rotr 22 x).
Definition Sigma1 (x : Z) : Z :=
  Z.lxor (Z.lxor (rotr 6 x) (rotr 11 x)) (rotr 25 x).
Definition sigma0 (x : Z) : Z :=
  Z.lxor (Z.lxor (rotr 7 x) (rotr 18 x)) (shr 3 x).
Definition sigma1 (x : Z) : Z :=
  Z.lxor (Z.lxor (rotr 17 x) (rotr 19 x)) (shr 10 x).

(** Words written in hexadecimal, eight digits each, a blank after each. *)
Definition hex_digit (c : ascii) : Z :=
  let n := Z.of_N (N_of_ascii c) in
  if (48 <=? n) && (n <=? 57) then n - 48
  else if (97 <=? n) && (n <=? 102) then n - 87
  else 0.

Fixpoint words_from (acc : Z) (s : string) : list Z :=
  match s with
  | EmptyString => []
  | String c rest =>
      if Ascii.eqb c " "%char then acc :: words_from 0 rest
      else words_from (acc * 16 + hex_digit c) rest
  end.

Definition words_of_hex (s : string) : list Z := words_from 0 s.

(** The first 32 bits of the fractional parts of the cube roots of the
    first 64 primes. *)
Definition K : list Z :=
  words_of_hex
    ("428a2f98 71374491 b5c0fbcf e9b5dba5 3956c25b 59f111f1 923f82a4 ab1c5ed5 "
     ++ "d807aa98 12835b01 243185be 550c7dc3 72be5d74 80deb1fe 9bdc06a7 c19bf174 "
     ++ "e49b69c1 efbe4786 0fc19dc6 240ca1cc 2de92c6f 4a7484aa 5cb0a9dc 76f988da "
     ++ "983e5152 a831c66d b00327c8 bf597fc7 c6e00bf3 d5a79147 06ca6351 14292967 "
     ++ "27b70a85 2e1b2138 4d2c6dfc 53380d13 650a7354 766a0abb 81c2c92e 92722c85 "
     ++ "a2bfe8a1 a81a664b c24b8b70 c76c51a3 d192e819 d6990624 f40e3585 106aa070 "
     ++ "19a4c116 1e376c08 2748774c 34b0bcb5 391c0cb3 4ed8aa4a 5b9cca4f 682e6ff3 "
     ++ "748f82ee 78a5636f 84c87814 8cc70208 90befffa a4506ceb bef9a3f7 c67178f2 ")%string.

Record state := mkState {
  h0 : Z; h1 : Z; h2 : Z; h3 : Z; h4 : Z; h5 : Z; h6 : Z; h7 : Z
}.

(** The first 32 bits of the fractional parts of the square roots of the
    first 8 primes. *)
Definition initial : state :=
  match words_of_hex "6a09e667 bb67ae85 3c6ef372 a54ff53a 510e527f 9b05688c 1f83d9ab 5be0cd19 " with
  | [a; b; c; d; e; f; g; h] => mkState a b c d e f g h
  | _ => mkState 0 0 0 0 0 0 0 0
  end.

(** Four bytes, big-endian, as a word; and back. *)
Definition word_of_bytes (bs : list byte) : Z :=
  fold_left (fun acc b => acc * 256 + Z_of_byte b) bs 0.

Definition bytes_of_word (w : Z) : list byte :=
  [byte_of_Z (Z.shiftr w 24); byte_of_Z (Z.shiftr w 16);
   byte_of_Z (Z.shiftr w 8); byte_of_Z w].

Fixpoint words_of_bytes (n : nat) (bs : list byte) : list Z :=
  match n with
  | O => []
  | S n' => word_of_bytes (firstn 4 bs) :: words_of_bytes n' (skipn 4 bs)
  end.

(** The 64 rounds over one block. [w] holds the sixteen most recent words
    of the message schedule, oldest first. *)
Fixpoint rounds (ks : list Z) (w : list Z) (s : state) : state :=
  match ks with
  | [] => s
  | k :: ks' =>
      let wt := nth 0 w 0 in
      let t1 := add32 (add32 (add32 (add32 (h7 s) (Sigma1 (h4 s)))
                                    (Ch (h4 s) (h5 s) (h6 s))) k) wt in
      let t2 := add32 (Sigma0 (h0 s)) (Maj (h0 s) (h1 s) (h2 s)) in
      let next := add32 (add32 (add32 (sigma1 (nth 14 w 0)) (nth 9 w 0))
                               (sigma0 (nth 1 w 0))) wt in
      rounds ks' (tl w ++ [next])
             (mkState (add32 t1 t2) (h0 s) (h1 s) (h2 s)
                      (add32 (h3 s) t1) (h4 s) (h5 s) (h6 s))
  end.

Definition compress (s : state) (block : list byte) : state :=
  let r := rounds K (words_of_bytes 16 block) s in
  mkState (add32 (h0 s) (h0 r)) (add32 (h1 s) (h1 r))
          (add32 (h2 s) (h2 r)) (add32 (h3 s) (h3 r))
          (add32 (h4 s) (h4 r)) (add32 (h5 s) (h5 r))
          (add32 (h6 s) (h6 r)) (add32 (h7 s) (h7 r)).

(** Padding: a 1 bit, zeros up to 56 mod 64, and the bit length on 64 bits. *)
Definition pad (msg : list byte) : list byte :=
  let len := Z.of_nat (length msg) in
  let zeros := Z.to_nat ((55 - len) mod 64) in
  msg ++ [x80] ++ repeat x00 zeros
      ++ bytes_of_word (Z.shiftr (len * 8) 32) ++ bytes_of_word (len * 8).

Fixpoint blocks (n : nat) (s : state) (bs : list byte) : state :=
  match n with
  | O => s
  | S n' => blocks n' (compress s (firstn 64 bs)) (skipn 64 bs)
  end.

Definition digest_bytes (s : state) : list byte :=
  bytes_of_word (h0 s) ++ bytes_of_word (h1 s) ++ bytes_of_word (h2 s)
  ++ bytes_of_word (h3 s) ++ bytes_of_word (h4 s) ++ bytes_of_word (h5 s)
  ++ bytes_of_word (h6 s) ++ bytes_of_word (h7 s).

Definition sha256 (msg : list byte) : list byte :=
  let padded := pad msg in
  digest_bytes (blocks (length padded / 64) initial padded).

(** ** HMAC (RFC 2104) with a 64-byte block *)

Definition xor_byte (a b : byte) : byte :=
  byte_of_Z (Z.lxor (Z_of_byte a) (Z_of_byte b)).

Definition block_key (key : list byte) : list byte :=
  let k := if (64 <? length key)%nat then sha256 key else key in
  k ++ repeat x00 (64 - length k).

Definition hmac_sha256 (key msg : list byte) : list byte :=
  let k := block_key key in
  sha256 (map (xor_byte x5c) k ++ sha256 (map (xor_byte x36) k ++ msg)).

(** ** HKDF (RFC 5869) *)

Definition hkdf_extract (salt ikm : list byte) : list byte :=
  hmac_sha256 salt ikm.

Fixpoint hkdf_blocks (n : nat) (prk info prev : list byte) (i : Z)
  : list byte :=
  match n with
  | O => []
  | S n' =>
      let t := hmac_sha256 prk (prev ++ info ++ [byte_of_Z i]) in
      t ++ hkdf_blocks n' prk info t (i + 1)
  end.

Definition hkdf_expand (prk info : list byte) (len : nat) : list byte :=
  firstn len (hkdf_blocks ((len + 31) / 32) prk info [] 1).

Definition hkdf_sha256 (ikm salt info : list byte) (len : nat) : list byte :=
  hkdf_expand (hkdf_extract salt ikm) info len.

End SHA256.

(* ===================================================================== *)
(** * AES-256, decryption direction (FIPS 197), and CBC

    The block cipher behind [crypto.createDecipheriv('aes-256-cbc', ...)].
    A block and a round key are lists of 16 bytes, column by column. *)
(* ===================================================================== *)

Module AES256.

Local Open Scope N_scope.

Definition sbox_table : list byte :=
  [
   x63; x7c; x77; x7b; xf2; x6b; x6f; xc5; x30; x01; x67; x2b; xfe; xd7; xab; x76;
   xca; x82; xc9; x7d; xfa; x59; x47; xf0; xad; xd4; xa2; xaf; x9c; xa4; x72; xc0;
   xb7; xfd; x93; x26; x36; x3f; xf7; xcc; x34; xa5; xe5; xf1; x71; xd8; x31; x15;
   x04; xc7; x23; xc3; x18; x96; x05; x9a; x07; x12; x80; xe2; xeb; x27; xb2; x75;
   x09; x83; x2c; x1a; x1b; x6e; x5a; xa0; x52; x3b; xd6; xb3; x29; xe3; x2f; x84;
   x53; xd1; x00; xed; x20; xfc; xb1; x5b; x6a; xcb; xbe; x39; x4a; x4c; x58; xcf;
   xd0; xef; xaa; xfb; x43; x4d; x33; x85; x45; xf9; x02; x7f; x50; x3c; x9f; xa8;
   x51; xa3; x40; x8f; x92; x9d; x38; xf5; xbc; xb6; xda; x21; x10; xff; xf3; xd2;
   xcd; x0c; x13; xec; x5f; x97; x44; x17; xc4; xa7; x7e; x3d; x64; x5d; x19; x73;
   x60; x81; x4f; xdc; x22; x2a; x90; x88; x46; xee; xb8; x14; xde; x5e; x0b; xdb;
   xe0; x32; x3a; x0a; x49; x06; x24; x5c; xc2; xd3; xac; x62; x91; x95; xe4; x79;
   xe7; xc8; x37; x6d; x8d; xd5; x4e; xa9; x6c; x56; xf4; xea; x65; x7a; xae; x08;
   xba; x78; x25; x2e; x1c; xa6; xb4; xc6; xe8; xdd; x74; x1f; x4b; xbd; x8b; x8a;
   x70; x3e; xb5; x66; x48; x03; xf6; x0e; x61; x35; x57; xb9; x86; xc1; x1d; x9e;
   xe1; xf8; x98; x11; x69; xd9; x8e; x94; x9b; x1e; x87; xe9; xce; x55; x28; xdf;
   x8c; xa1; x89; x0d; xbf; xe6; x42; x68; x41; x99; x2d; x0f; xb0; x54; xbb; x16
  ].

Definition inv_sbox_table : list byte :=
  [
   x52; x09; x6a; xd5; x30; x36; xa5; x38; xbf; x40; xa3; x9e; x81; xf3; xd7; xfb;
   x7c; xe3; x39; x82; x9b; x2f; xff; x87; x34; x8e; x43; x44; xc4; xde; xe9; xcb;
   x54; x7b; x94; x32; xa6; xc2; x23; x3d; xee; x4c; x95; x0b; x42; xfa; xc3; x4e;
   x08; x2e; xa1; x66; x28; xd9; x24; xb2; x76; x5b; xa2; x49; x6d; x8b; xd1; x25;
   x72; xf8; xf6; x64; x86; x68; x98; x16; xd4; xa4; x5c; xcc; x5d; x65; xb6; x92;
   x6c; x70; x48; x50; xfd; xed; xb9; xda; x5e; x15; x46; x57; xa7; x8d; x9d; x84;
   x90; xd8; xab; x00; x8c; xbc; xd3; x0a; xf7; xe4; x58; x05; xb8; xb3; x45; x06;
   xd0; x2c; x1e; x8f; xca; x3f; x0f; x02; xc1; xaf; xbd; x03; x01; x13; x8a; x6b;
   x3a; x91; x11; x41; x4f; x67; xdc; xea; x97; xf2; xcf; xce; xf0; xb4; xe6; x73;
   x96; xac; x74; x22; xe7; xad; x35; x85; xe2; xf9; x37; xe8; x1c; x75; xdf; x6e;
   x47; xf1; x1a; x71; x1d; x29; xc5; x89; x6f; xb7; x62; x0e; xaa; x18; xbe; x1b;
   xfc; x56; x3e; x4b; xc6; xd2; x79; x20; x9a; xdb; xc0; xfe; x78; xcd; x5a; xf4;
   x1f; xdd; xa8; x33; x88; x07; xc7; x31; xb1; x12; x10; x59; x27; x80; xec; x5f;
   x60; x51; x7f; xa9; x19; xb5; x4a; x0d; x2d; xe5; x7a; x9f; x93; xc9; x9c; xef;
   xa0; xe0; x3b; x4d; xae; x2a; xf5; xb0; xc8; xeb; xbb; x3c; x83; x53; x99; x61;
   x17; x2b; x04; x7e; xba; x77; xd6; x26; xe1; x69; x14; x63; x55; x21; x0c; x7d
  ].

Definition sub_byte (b : byte) : byte := nth (Byte.to_nat b) sbox_table x00.
Definition inv_sub_byte (b : byte) : byte :=
  nth (Byte.to_nat b) inv_sbox_table x00.

Definition xor (a b : byte) : byte :=
  byte_of_N (N.lxor (Byte.to_N a) (Byte.to_N b)).

Definition xor_bytes (a b : list byte) : list byte :=
  map (fun p => xor (fst p) (snd p)) (combine a b).

(** Multiplication by [x] in GF(2^8) modulo [x^8 + x^4 + x^3 + x + 1]. *)
Definition xtime (b : byte) : byte :=
  let n := Byte.to_N b in
  byte_of_N (if 128 <=? n then N.lxor (N.shiftl n 1) 283 else N.shiftl n 1).

Definition mul9 (b : byte) : byte := xor (xtime (xtime (xtime b))) b.
Definition mul11 (b : byte) : byte :=
  xor (xor (xtime (xtime (xtime b))) (xtime b)) b.
Definition mul13 (b : byte) : byte :=
  xor (xor (xtime (xtime (xtime b))) (xtime (xtime b))) b.
Definition mul14 (b : byte) : byte :=
  xor (xor (xtime (xtime (xtime b))) (xtime (xtime b))) (xtime b).

Definition inv_mix_column (a0 a1 a2 a3 : byte) : list byte :=
  [xor (xor (mul14 a0) (mul11 a1)) (xor (mul13 a2) (mul9 a3));
   xor (xor (mul9 a0) (mul14 a1)) (xor (mul11 a2) (mul13 a3));
   xor (xor (mul13 a0) (mul9 a1)) (xor (mul14 a2) (mul11 a3));
   xor (xor (mul11 a0) (mul13 a1)) (xor (mul9 a2) (mul14 a3))].

Definition inv_mix_columns (st : list byte) : list byte :=
  match st with
  | [s0; s1; s2; s3; s4; s5; s6; s7; s8; s9; s10; s11; s12; s13; s14; s15] =>
      inv_mix_column s0 s1 s2 s3 ++ inv_mix_column s4 s5 s6 s7
      ++ inv_mix_column s8 s9 s10 s11 ++ inv_mix_column s12 s13 s14 s15
  | _ => st
  end.

Definition inv_shift_rows (st : list byte) : list byte :=
  match st with
  | [s0; s1; s2; s3; s4; s5; s6; s7; s8; s9; s10; s11; s12; s13; s14; s15] =>
      [s0; s13; s10; s7; s4; s1; s14; s11; s8; s5; s2; s15; s12; s9; s6; s3]
  | _ => st
  end.

Definition inv_sub_bytes (st : list byte) : list byte := map inv_sub_byte st.

Definition add_round_key (st k : list byte) : list byte := xor_bytes st k.

(** ** Key expansion for a 32-byte key: 60 words, 15 round keys *)

Definition rot_word (w : list byte) : list byte :=
  match w with
  | a :: rest => rest ++ [a]
  | [] => []
  end.

Definition sub_word (w : list byte) : list byte := map sub_byte w.

(** [ws] holds the words produced so far, newest first; [i] is the index
    of the word to produce. *)
Fixpoint expand_key (n i : nat) (rcon : byte) (ws : list (list byte))
  : list (list byte) :=
  match n with
  | O => ws
  | S n' =>
      let prev := nth 0 ws [] in
      let old := nth 7 ws [] in
      let temp :=
        if (i mod 8 =? 0)%nat
        then xor_bytes (sub_word (rot_word prev)) [rcon; x00; x00; x00]
        else if (i mod 8 =? 4)%nat then sub_word prev
        else prev in
      expand_key n' (S i)
                 (if (i mod 8 =? 0)%nat then xtime rcon else rcon)
                 (xor_bytes old temp :: ws)
  end.

Fixpoint chunks (size n : nat) (bs : list byte) : list (list byte) :=
  match n with
  | O => []
  | S n' => firstn size bs :: chunks size n' (skipn size bs)
  end.

Definition round_keys (key : list byte) : list (list byte) :=
  let words := rev (expand_key 52 8 x01 (rev (chunks 4 8 key))) in
  chunks 16 15 (concat words).

(** ** The inverse cipher *)

Fixpoint inv_rounds (ks : list (list byte)) (st : list byte) : list byte :=
  match ks with
  | [] => st
  | [k0] => add_round_key (inv_sub_bytes (inv_shift_rows st)) k0
  | k :: ks' =>
      inv_rounds ks'
        (inv_mix_columns
           (add_round_key (inv_sub_bytes (inv_shift_rows st)) k))
  end.

Definition inv_cipher (rks : list (list byte)) (block : list byte)
  : list byte :=
  match rev rks with
  | [] => block
  | k_last :: ks => inv_rounds ks (add_round_key block k_last)
  end.

Definition decrypt_block (key block : list byte) : list byte :=
  inv_cipher (round_keys key) block.

(** ** CBC decryption of [n] whole blocks: [P_i = D(C_i) xor C_(i-1)] *)

Fixpoint cbc_decrypt (n : nat) (rks : list (list byte))
         (prev ct : list byte) : list byte :=
  match n with
  | O => []
  | S n' =>
      let c := firstn 16 ct in
      xor_bytes (inv_cipher rks c) prev
      ++ cbc_decrypt n' rks c (skipn 16 ct)
  end.

(** ** The cipher itself (encryption), for stating what the inverse cipher
    undoes *)

Definition mul2 (b : byte) : byte := xtime b.
Definition mul3 (b : byte) : byte := xor (xtime b) b.

Definition mix_column (a0 a1 a2 a3 : byte) : list byte :=
  [xor (xor (mul2 a0) (mul3 a1)) (xor a2 a3);
   xor (xor a0 (mul2 a1)) (xor (mul3 a2) a3);
   xor (xor a0 a1) (xor (mul2 a2) (mul3 a3));
   xor (xor (mul3 a0) a1) (xor a2 (mul2 a3))].

Definition mix_columns (st : list byte) : list byte :=
  match st with
  | [s0; s1; s2; s3; s4; s5; s6; s7; s8; s9; s10; s11; s12; s13; s14; s15] =>
      mix_column s0 s1 s2 s3 ++ mix_column s4 s5 s6 s7
      ++ mix_column s8 s9 s10 s11 ++ mix_column s12 s13 s14 s15
  | _ => st
  end.

Definition shift_rows (st : list byte) : list byte :=
  match st with
  | [s0; s1; s2; s3; s4; s5; s6; s7; s8; s9; s10; s11; s12; s13; s14; s15] =>
      [s0; s5; s10; s15; s4; s9; s14; s3; s8; s13; s2; s7; s12; s1; s6; s11]
  | _ => st
  end.

Definition sub_bytes (st : list byte) : list byte := map sub_byte st.

(** The state after the rounds that use the keys [ks], given newest first
    as [inv_rounds] takes them: the last key of [ks] is the one added to
    the plaintext. *)
Fixpoint rounds (ks : list (list byte)) (plain : list byte) : list byte :=
  match ks with
  | [] => plain
  | [k0] => shift_rows (sub_bytes (add_round_key plain k0))
  | k :: ks' =>
      shift_rows (sub_bytes (add_round_key (mix_columns (rounds ks' plain)) k))
  end.

Definition cipher (rks : list (list byte)) (block : list byte) : list byte :=
  match rev rks with
  | [] => block
  | k_last :: ks => add_round_key (rounds ks block) k_last
  end.

Definition encrypt_block (key block : list byte) : list byte :=
  cipher (round_keys key) block.

(** CBC encryption of [n] whole blocks: [C_i = E(P_i xor C_(i-1))]. *)
Fixpoint cbc_encrypt (n : nat) (rks : list (list byte))
         (prev pt : list byte) : list byte :=
  match n with
  | O => []
  | S n' =>
      let c := cipher rks (xor_bytes (firstn 16 pt) prev) in
      c ++ cbc_encrypt n' rks c (skipn 16 pt)
  end.

(** ** Shapes

    Round keys are 16-byte blocks and key-schedule words are 4 bytes. *)

Definition blocks16 (ks : list (list byte)) : Prop :=
  Forall (fun k => length k = 16%nat) ks.

Definition words4 (ws : list (list byte)) : Prop :=
  Forall (fun w => length w = 4%nat) ws.

(** The chaining value after [q] blocks of [ct]: the ciphertext block
    before block [q], or [prev] when there is none. *)
Definition chain_at (q : nat) (prev ct : list byte) : list byte :=
  if (q =? 0)%nat then prev else firstn 16 (skipn (16 * (q - 1)) ct).

End AES256.
(* ===================================================================== *)
(** * The Node.js runtime, as far as the module uses it *)
(* ===================================================================== *)

Module Node.

(** ** Values

    Two kinds of binary data reach the module. A [Buffer] is a view
    ([Buffer] extends [Uint8Array]; [ArrayBuffer.isView] holds of it). An
    [ArrayBuffer] is raw memory and not a view; [crypto.hkdfSync] returns
    one ("Returns: <ArrayBuffer>" in the documentation of [crypto]), and
    [ArrayBuffer.prototype.slice] gives an [ArrayBuffer] again. The two
    kinds are two types here, and [value] is what a runtime function sees
    when it accepts arguments of several kinds. *)

Record ArrayBuffer := mkArrayBuffer { ab_bytes : list byte }.

Inductive value :=
| Undefined
| Str (s : string)
| Buf (b : Buffer)
| ArrayBuf (a : ArrayBuffer).

(** ** Errors *)

Record error := mkError {
  name : string;      (* the constructor: Error, TypeError, RangeError *)
  code : string;      (* Node's error code, empty when there is none *)
  message : string
}.

(** [new Error(msg)] *)
Definition Error (msg : string) : error := mkError "Error" "" msg.

Definition dquote : string := String (ascii_of_nat 34) EmptyString.

Definition describe (v : value) : string :=
  match v with
  | Undefined => "undefined"
  | Str _ => "type string"
  | Buf _ => "an instance of Buffer"
  | ArrayBuf _ => "an instance of ArrayBuffer"
  end.

Definition ERR_INVALID_ARG_TYPE (arg expected : string) (v : value) : error :=
  mkError "TypeError" "ERR_INVALID_ARG_TYPE"
    ("The " ++ dquote ++ arg ++ dquote ++ " argument must be " ++ expected
     ++ ". Received " ++ describe v).

Definition ERR_BUFFER_FROM (v : value) : error :=
  mkError "TypeError" "ERR_INVALID_ARG_TYPE"
    ("The first argument must be of type string or an instance of Buffer, "
     ++ "ArrayBuffer, or Array or an Array-like Object. Received "
     ++ describe v).

Definition ERR_CRYPTO_INVALID_DIGEST (d : string) : error :=
  mkError "TypeError" "ERR_CRYPTO_INVALID_DIGEST" ("Invalid digest: " ++ d).

Definition ERR_CRYPTO_INVALID_KEYLEN : error :=
  mkError "RangeError" "ERR_CRYPTO_INVALID_KEYLEN" "Invalid key length".

Definition ERR_CRYPTO_INVALID_IV : error :=
  mkError "TypeError" "ERR_CRYPTO_INVALID_IV" "Invalid initialization vector".

Definition ERR_CRYPTO_UNKNOWN_CIPHER : error :=
  mkError "TypeError" "ERR_CRYPTO_UNKNOWN_CIPHER" "Unknown cipher".

Definition ERR_CRYPTO_TIMING_SAFE_EQUAL_LENGTH : error :=
  mkError "RangeError" "ERR_CRYPTO_TIMING_SAFE_EQUAL_LENGTH"
    "Input buffers must have the same byte length".

Definition ERR_OSSL_WRONG_FINAL_BLOCK_LENGTH : error :=
  mkError "Error" "ERR_OSSL_WRONG_FINAL_BLOCK_LENGTH"
    "error:1C80006B:Provider routines::wrong final block length".

Definition ERR_OSSL_BAD_DECRYPT : error :=
  mkError "Error" "ERR_OSSL_BAD_DECRYPT"
    "error:1C800064:Provider routines::bad decrypt".

(** ** Calls into the [crypto] module, as they are recorded *)

Inductive call :=
| hkdfSync_call (digest : string) (ikm salt info : list byte) (keylen : nat)
| createHmac_call (algorithm : string) (key : list byte)
| Hmac_update_call (data : value)
| Hmac_digest_call
| timingSafeEqual_call (a b : Buffer)
| createDecipheriv_call (algorithm : string) (key iv : list byte)
| Decipher_update_call (data : Buffer)
| Decipher_final_call
| createHash_call (algorithm : string)
| Hash_update_call (data : value)
| Hash_digest_call.

(** ** The monad: the calls made so far, and a value or a thrown error *)

Inductive outcome (A : Type) :=
| Return (a : A)
| Throw (e : error).
Arguments Return {A} a.
Arguments Throw {A} e.

Definition M (A : Type) : Type := (list call * outcome A)%type.

Definition ret {A} (a : A) : M A := ([], Return a).
Definition throw {A} (e : error) : M A := ([], Throw e).
Definition log (c : call) : M unit := ([c], Return tt).

Definition bind {A B} (m : M A) (k : A -> M B) : M B :=
  match m with
  | (t, Return a) => let (t', r) := k a in (t ++ t', r)
  | (t, Throw e) => (t, Throw e)
  end.

(** [try { m } catch (error) { h error }] *)
Definition try_catch {A} (m : M A) (h : error -> M A) : M A :=
  match m with
  | (t, Throw e) => let (t', r) := h e in (t ++ t', r)
  | (t, Return a) => (t, Return a)
  end.

Definition calls {A} (m : M A) : list call := fst m.
Definition result {A} (m : M A) : outcome A := snd m.

Declare Scope node_scope.
Delimit Scope node_scope with node.
Notation "x <- m ;; k" := (bind m (fun x => k))
  (at level 61, m at next level, right associativity) : node_scope.
Notation "m ;;; k" := (bind m (fun _ => k))
  (at level 61, right associativity) : node_scope.
Local Open Scope node_scope.

(** ** [Buffer] *)

Inductive encoding := utf8 | base64.

Definition isBuffer (v : value) : bool :=
  match v with
  | Buf _ => true
  | _ => false
  end.

(** [Buffer.from(v, enc)]: the encoding matters for a string only. *)
Definition Buffer_from (v : value) (enc : encoding) : M Buffer :=
  match v with
  | Str s =>
      match enc with
      | utf8 => ret (bytes_of_string s)
      | base64 => ret (Base64.decode s)
      end
  | Buf b => ret b
  | ArrayBuf a => ret (ab_bytes a)
  | Undefined => throw (ERR_BUFFER_FROM v)
  end.

Definition Buffer_alloc (n : nat) : Buffer := repeat x00 n.

Definition Buffer_concat (parts : list Buffer) : Buffer := concat parts.

(** [a.equals(b)] *)
Definition Buffer_equals (a b : Buffer) : bool := bytes_eqb a b.

Definition ArrayBuffer_slice (a : ArrayBuffer) (start : Z) (end_ : option Z)
  : ArrayBuffer :=
  mkArrayBuffer (slice (ab_bytes a) start end_).

(** The bytes of an argument that may be a string, a [Buffer] or an
    [ArrayBuffer] (a key, a salt, an initialization vector). *)
Definition bytes_of_value (v : value) : option (list byte) :=
  match v with
  | Undefined => None
  | Str s => Some (bytes_of_string s)
  | Buf b => Some b
  | ArrayBuf a => Some (ab_bytes a)
  end.

(** ** [crypto]

    A function reads its binary arguments, records its call, and then
    rejects what it rejects by throwing. *)

Definition binary_like : string :=
  "of type string or an instance of ArrayBuffer, Buffer, TypedArray, or DataView".

Definition with_bytes {A} (arg : string) (v : value)
           (k : list byte -> M A) : M A :=
  match bytes_of_value v with
  | Some b => k b
  | None => throw (ERR_INVALID_ARG_TYPE arg binary_like v)
  end.

(** [crypto.hkdfSync(digest, ikm, salt, info, keylen)]. The result is an
    [ArrayBuffer]. The input keying material may have any length (zero
    included, since Node.js 18.8); [keylen] is at most 255 digests. *)
Definition hkdfSync (digest : string) (ikm salt info : value) (keylen : nat)
  : M ArrayBuffer :=
  with_bytes "ikm" ikm (fun ikm =>
  with_bytes "salt" salt (fun salt =>
  with_bytes "info" info (fun info =>
    log (hkdfSync_call digest ikm salt info keylen) ;;;
    if negb (String.eqb digest "sha256")
    then throw (ERR_CRYPTO_INVALID_DIGEST digest)
    else if (255 * 32 <? keylen)%nat then throw ERR_CRYPTO_INVALID_KEYLEN
    else ret (mkArrayBuffer (SHA256.hkdf_sha256 ikm salt info keylen))))).

(** *** [Hmac] and [Hash]

    [hmac.update(data)] and [hash.update(data)] take a string or a view:
    the documentation lists [<string> | <Buffer> | <TypedArray> |
    <DataView>], and the function tests its argument with
    [isArrayBufferView]. Anything else, an [ArrayBuffer] included, is
    refused with a [TypeError] of code [ERR_INVALID_ARG_TYPE]. The key of
    [createHmac], in contrast, may be an [ArrayBuffer]. *)

Record Hmac := mkHmac { hmac_key : list byte; hmac_data : list byte }.

Definition updatable : string :=
  "of type string or an instance of Buffer, TypedArray, or DataView".

Definition update_data (v : value) : M (list byte) :=
  match v with
  | Str s => ret (bytes_of_string s)
  | Buf b => ret b
  | ArrayBuf _ | Undefined => throw (ERR_INVALID_ARG_TYPE "data" updatable v)
  end.

Definition createHmac (algorithm : string) (key : value) : M Hmac :=
  with_bytes "key" key (fun key =>
    log (createHmac_call algorithm key) ;;;
    if negb (String.eqb algorithm "sha256")
    then throw (ERR_CRYPTO_INVALID_DIGEST algorithm)
    else ret (mkHmac key [])).

Definition Hmac_update (h : Hmac) (data : value) : M Hmac :=
  log (Hmac_update_call data) ;;;
  bytes <- update_data data ;;
  ret (mkHmac (hmac_key h) (hmac_data h ++ bytes)).

Definition Hmac_digest (h : Hmac) : M Buffer :=
  log Hmac_digest_call ;;;
  ret (SHA256.hmac_sha256 (hmac_key h) (hmac_data h)).

Record Hash := mkHash { hash_data : list byte }.

Definition createHash (algorithm : string) : M Hash :=
  log (createHash_call algorithm) ;;;
  if negb (String.eqb algorithm "sha256")
  then throw (ERR_CRYPTO_INVALID_DIGEST algorithm)
  else ret (mkHash []).

Definition Hash_update (h : Hash) (data : value) : M Hash :=
  log (Hash_update_call data) ;;;
  bytes <- update_data data ;;
  ret (mkHash (hash_data h ++ bytes)).

(** [hash.digest('base64')] *)
Definition Hash_digest_base64 (h : Hash) : M string :=
  log Hash_digest_call ;;;
  ret (Base64.encode (SHA256.sha256 (hash_data h))).

(** *** [crypto.timingSafeEqual(a, b)]: throws when the lengths differ *)

Definition timingSafeEqual (a b : Buffer) : M bool :=
  log (timingSafeEqual_call a b) ;;;
  if negb (length a =? length b)%nat
  then throw ERR_CRYPTO_TIMING_SAFE_EQUAL_LENGTH
  else ret (bytes_eqb a b).

(** *** [Decipher] for ['aes-256-cbc']

    [pending] is the input not yet given back as plaintext and [chain] the
    ciphertext block before it. With padding on, [update] keeps the last
    whole block for [final], which decrypts it and strips the PKCS#7
    padding. *)

Record Decipher := mkDecipher {
  rks : list (list byte);
  chain : list byte;
  pending : list byte;
  auto_padding : bool
}.

Definition createDecipheriv (algorithm : string) (key iv : value)
  : M Decipher :=
  with_bytes "key" key (fun key =>
  with_bytes "iv" iv (fun iv =>
    log (createDecipheriv_call algorithm key iv) ;;;
    if negb (String.eqb algorithm "aes-256-cbc")
    then throw ERR_CRYPTO_UNKNOWN_CIPHER
    else if negb (length iv =? 16)%nat then throw ERR_CRYPTO_INVALID_IV
    else if negb (length key =? 32)%nat then throw ERR_CRYPTO_INVALID_KEYLEN
    else ret (mkDecipher (AES256.round_keys key) iv [] true))).

Definition setAutoPadding (d : Decipher) (on : bool) : Decipher :=
  mkDecipher (rks d) (chain d) (pending d) on.

Definition Decipher_update (d : Decipher) (data : Buffer)
  : M (Decipher * Buffer) :=
  log (Decipher_update_call data) ;;;
  let input := pending d ++ data in
  let whole := (length input / 16)%nat in
  let n := if auto_padding d && (length input mod 16 =? 0)%nat
           then (whole - 1)%nat else whole in
  let out := AES256.cbc_decrypt n (rks d) (chain d) input in
  let chain' := if (n =? 0)%nat then chain d
                else firstn 16 (skipn (16 * (n - 1)) input) in
  ret (mkDecipher (rks d) chain' (skipn (16 * n) input) (auto_padding d),
       out).

(** PKCS#7: the last byte [p] of the block, between 1 and 16, says how
    many bytes of padding there are, and each of them is [p]. *)
Definition unpad (block : list byte) : option (list byte) :=
  let p := Byte.to_nat (last block x00) in
  if (p =? 0)%nat || (16 <? p)%nat then None
  else if forallb (Byte.eqb (last block x00)) (skipn (16 - p) block)
       then Some (firstn (16 - p) block)
       else None.

Definition Decipher_final (d : Decipher) : M Buffer :=
  log Decipher_final_call ;;;
  if auto_padding d then
    if negb (length (pending d) =? 16)%nat
    then throw ERR_OSSL_WRONG_FINAL_BLOCK_LENGTH
    else match unpad (AES256.cbc_decrypt 1 (rks d) (chain d) (pending d)) with
         | Some plain => ret plain
         | None => throw ERR_OSSL_BAD_DECRYPT
         end
  else
    if negb (length (pending d) =? 0)%nat
    then throw ERR_OSSL_WRONG_FINAL_BLOCK_LENGTH
    else ret [].

End Node.

(* ===================================================================== *)
(** * [src/utils/crypto-utils.js] *)
(* ===================================================================== *)

Module CryptoUtils.

Import Node.
Local Open Scope node_scope.

(** [if (!Buffer.isBuffer(x)) { x = Buffer.from(x); }] *)
Definition ensure_buffer (x : value) : M Buffer :=
  match x with
  | Buf b => ret b
  | other => Buffer_from other utf8
  end.

Definition mac_failure : string :=
  "Falha na verificação de integridade (MAC inválido)".

Definition decrypt_prefix : string := "Erro na descriptografia: ".

(** Lines 39-53 of [decryptWhatsAppMedia]: the two MACs are compared, and
    only then is the ciphertext decrypted. *)
Definition verify_then_decipher (iv cipherKey : ArrayBuffer)
           (encryptedMedia receivedMac computedMac : Buffer) : M Buffer :=
  equal <- timingSafeEqual receivedMac computedMac ;;
  if negb equal then throw (Error mac_failure)
  else
    decipher <- createDecipheriv "aes-256-cbc" (ArrayBuf cipherKey)
                                 (ArrayBuf iv) ;;
    let decipher := setAutoPadding decipher true in
    updated <- Decipher_update decipher encryptedMedia ;;
    final <- Decipher_final (fst updated) ;;
    let decrypted := Buffer_concat [snd updated; final] in
    ret decrypted.

(** The body of the [try] block of [decryptWhatsAppMedia], lines 11-53. *)
Definition decrypt_body (mediaKey encryptedData : value) : M Buffer :=
  encryptedData <- ensure_buffer encryptedData ;;
  mediaKeyBuffer <- Buffer_from mediaKey base64 ;;
  expandedKey <- hkdfSync "sha256" (Buf mediaKeyBuffer) (Buf (Buffer_alloc 0))
                          (Str "WhatsApp Media Keys") 112 ;;
  let iv := ArrayBuffer_slice expandedKey 0 (Some 16%Z) in
  let cipherKey := ArrayBuffer_slice expandedKey 16 (Some 48%Z) in
  let macKey := ArrayBuffer_slice expandedKey 48 (Some 80%Z) in
  let encryptedMedia := slice encryptedData 0 (Some (-10)%Z) in
  let receivedMac := slice encryptedData (-10) None in
  hmac <- createHmac "sha256" (ArrayBuf macKey) ;;
  hmac <- Hmac_update hmac (ArrayBuf iv) ;;
  hmac <- Hmac_update hmac (Buf encryptedMedia) ;;
  digest <- Hmac_digest hmac ;;
  let computedMac := slice digest 0 (Some 10%Z) in
  verify_then_decipher iv cipherKey encryptedMedia receivedMac computedMac.

(** The [catch] block, lines 54-56: whatever was thrown is thrown again
    as a plain [Error] whose message is the prefix and the message
    caught. *)
Definition decrypt_catch (error : error) : M Buffer :=
  throw (Error (decrypt_prefix ++ message error)).

(** Lines 9-57. *)
Definition decryptWhatsAppMedia (mediaKey encryptedData : value) : M Buffer :=
  try_catch (decrypt_body mediaKey encryptedData) decrypt_catch.

Definition validateEncryptedData (encryptedData : value) : M bool :=
  encryptedData <- ensure_buffer encryptedData ;;
  if (length encryptedData <? 10)%nat then ret false
  else
    let mediaSize := (length encryptedData - 10)%nat in
    if negb (mediaSize mod 16 =? 0)%nat then ret false
    else ret true.

Definition validateMediaKey (mediaKey : value) : M bool :=
  try_catch
    (keyBuffer <- Buffer_from mediaKey base64 ;;
     ret (length keyBuffer =? 32)%nat)
    (fun error => ret false).

(** [computedHash === expected]: a string is strictly equal to a string
    with the same characters, and to nothing else. *)
Definition strict_equal (computedHash : string) (expected : value) : bool :=
  match expected with
  | Str e => String.eqb computedHash e
  | _ => false
  end.

Definition verifyFileSha256 (decryptedData expectedSha256 : value) : M bool :=
  try_catch
    (decryptedData <- ensure_buffer decryptedData ;;
     hash <- createHash "sha256" ;;
     hash <- Hash_update hash (Buf decryptedData) ;;
     computedHash <- Hash_digest_base64 hash ;;
     ret (strict_equal computedHash expectedSha256))
    (fun error => ret false).

Definition verifyEncryptedFileSha256 (encryptedData expectedEncSha256 : value)
  : M bool :=
  try_catch
    (encryptedData <- ensure_buffer encryptedData ;;
     hash <- createHash "sha256" ;;
     hash <- Hash_update hash (Buf encryptedData) ;;
     computedHash <- Hash_digest_base64 hash ;;
     ret (strict_equal computedHash expectedEncSha256))
    (fun error => ret false).

Definition detectMimeType (data : Buffer) : string :=
  let magicBytes := slice data 0 (Some 12%Z) in
  if Buffer_equals (slice magicBytes 0 (Some 4%Z)) [xff; xd8; xff; xe0]
     || Buffer_equals (slice magicBytes 0 (Some 4%Z)) [xff; xd8; xff; xe1]
  then "image/jpeg"
  else if Buffer_equals (slice magicBytes 0 (Some 8%Z))
                        [x89; x50; x4e; x47; x0d; x0a; x1a; x0a]
  then "image/png"
  else if Buffer_equals (slice magicBytes 0 (Some 4%Z)) (bytes_of_string "OggS")
  then "audio/ogg"
  else if Buffer_equals (slice magicBytes 0 (Some 4%Z)) (bytes_of_string "fLaC")
  then "audio/flac"
  else if Buffer_equals (slice magicBytes 0 (Some 4%Z)) [x00; x00; x00; x18]
          || Buffer_equals (slice magicBytes 0 (Some 4%Z)) [x00; x00; x00; x20]
  then "video/mp4"
  else if Buffer_equals (slice magicBytes 0 (Some 3%Z)) (bytes_of_string "ID3")
          || Buffer_equals (slice magicBytes 0 (Some 2%Z)) [xff; xfb]
  then "audio/mpeg"
  else "application/octet-stream".

End CryptoUtils.

(* ===================================================================== *)
(** * What the specification says, stated over bytes *)
(* ===================================================================== *)

Module Spec.

(** The signature table of the Format Sniffer, in its priority order: the
    byte patterns of each entry, all read at offset 0, and its MIME
    label. *)
Definition signature_table : list (list Buffer * string) :=
  [ ([[xff; xd8; xff; xe0]; [xff; xd8; xff; xe1]], "image/jpeg");
    ([[x89; x50; x4e; x47; x0d; x0a; x1a; x0a]], "image/png");
    ([bytes_of_string "OggS"], "audio/ogg");
    ([bytes_of_string "fLaC"], "audio/flac");
    ([[x00; x00; x00; x18]; [x00; x00; x00; x20]], "video/mp4");
    ([bytes_of_string "ID3"; [xff; xfb]], "audio/mpeg") ].

(** [data] starts with [pattern]. *)
Definition starts_with (pattern data : Buffer) : bool :=
  bytes_eqb (firstn (length pattern) data) pattern.

(** The label of the first entry one of whose patterns [data] starts with,
    and the generic label when there is none. *)
Fixpoint first_match (table : list (list Buffer * string)) (data : Buffer)
  : string :=
  match table with
  | [] => "application/octet-stream"
  | (patterns, label) :: rest =>
      if existsb (fun p => starts_with p data) patterns then label
      else first_match rest data
  end.

(** The base64 alphabet: the 64 characters of the encoding and the padding
    character. *)
Definition in_alphabet (c : ascii) : bool :=
  existsb (Ascii.eqb c) (list_ascii_of_string Base64.alphabet)
  || Ascii.eqb c "="%char.

(** [s] without the characters outside the alphabet: what is left to a
    decoder that ignores them. *)
Fixpoint ignore_outside (s : string) : string :=
  match s with
  | EmptyString => EmptyString
  | String c rest =>
      if in_alphabet c then String c (ignore_outside rest)
      else ignore_outside rest
  end.

(** The characters that Node's decoder reads as data: the base64 alphabet
    and the two characters that the URL-safe alphabet puts in the place
    of ['+'] and ['/']. *)
Definition data_chars : string := Base64.alphabet ++ "-_".

Definition is_data (c : ascii) : bool :=
  existsb (Ascii.eqb c) (list_ascii_of_string data_chars).

(** The number of data characters of [s] before its first ['=']. *)
Fixpoint data_before_end (s : string) : nat :=
  match s with
  | EmptyString => O
  | String c rest =>
      if Ascii.eqb c "="%char then O
      else if is_data c then S (data_before_end rest)
      else data_before_end rest
  end.

(** The payload format: [ciphertext || mac] with a 10-byte [mac] and a
    ciphertext of whole 16-byte blocks. *)
Definition payload_format (payload : Buffer) : Prop :=
  (10 <= Z.of_nat (length payload)
   /\ (Z.of_nat (length payload) - 10) mod 16 = 0)%Z.

(** ** The media protection scheme, for stating what a valid payload is

    The three keys derived from a media key, and the two facts that make
    [ciphertext ++ mac] the protected form of [plain]: the MAC is the
    truncated HMAC of [iv ++ ciphertext], and the ciphertext decrypts under
    AES-256-CBC to [plain] followed by its PKCS#7 padding. *)

Definition media_info : list byte := bytes_of_string "WhatsApp Media Keys".

Definition expanded (key : list byte) : list byte :=
  SHA256.hkdf_sha256 key [] media_info 112.

Definition iv_of (key : list byte) : list byte := firstn 16 (expanded key).
Definition cipher_key_of (key : list byte) : list byte :=
  firstn 32 (skipn 16 (expanded key)).
Definition mac_key_of (key : list byte) : list byte :=
  firstn 32 (skipn 48 (expanded key)).

Definition mac_of (key ciphertext : list byte) : list byte :=
  firstn 10 (SHA256.hmac_sha256 (mac_key_of key) (iv_of key ++ ciphertext)).

Definition pkcs7 (plain : list byte) : list byte :=
  let n := (16 - length plain mod 16)%nat in
  plain ++ repeat (byte_of_N (N.of_nat n)) n.

(** What the sender produces from [plain] under a cipher key and an
    initialization vector: the padded plaintext, CBC-encrypted. *)
Definition ciphertext_of (ck iv plain : list byte) : list byte :=
  AES256.cbc_encrypt (length plain / 16 + 1) (AES256.round_keys ck) iv
                     (pkcs7 plain).

Definition protects (key plain ciphertext mac : list byte) : Prop :=
  mac = mac_of key ciphertext
  /\ AES256.cbc_decrypt (length ciphertext / 16)
       (AES256.round_keys (cipher_key_of key)) (iv_of key) ciphertext
     = pkcs7 plain.

End Spec.

(* ===================================================================== *)
(** * Sample inputs *)
(* ===================================================================== *)

Module Samples.

(** A 32-byte media key, the bytes 00 to 1f, and its base64 text. *)
Definition key32 : list byte :=
  [x00; x01; x02; x03; x04; x05; x06; x07; x08; x09; x0a; x0b; x0c; x0d; x0e; x0f;
   x10; x11; x12; x13; x14; x15; x16; x17; x18; x19; x1a; x1b; x1c; x1d; x1e; x1f].

Definition key32_base64 : string := "AAECAwQFBgcICQoLDA0ODxAREhMUFRYXGBkaGxwdHh8=".

(** The plaintext [hello] protected under [key32]: one block of ciphertext
    and the 10-byte MAC. *)
Definition hello : list byte := bytes_of_string "hello".

Definition hello_ciphertext : list byte :=
  [x53; xbf; x56; x52; x6f; x77; x6a; xcf; xcf; x2a; x85; x29; x83; x65; xa8; x02].

Definition hello_mac : list byte :=
  [x26; x04; x86; xc5; xb0; x39; x17; x59; xa0; x1b].

Definition hello_payload : Buffer := hello_ciphertext ++ hello_mac.

(** The same payload with the lowest bit of the last MAC byte flipped. *)
Definition flipped_mac : list byte :=
  [x26; x04; x86; xc5; xb0; x39; x17; x59; xa0; x1a].

Definition flipped_payload : Buffer := hello_ciphertext ++ flipped_mac.



(** A payload of nine bytes. *)
Definition short_payload : Buffer :=
  [x01; x02; x03; x04; x05; x06; x07; x08; x09].

(** The 112 bytes derived from [key32]: the initialization vector, the
    cipher key, the MAC key, and 32 bytes that are not used. *)
Definition key32_iv : list byte :=
  [xce; xb9; x17; x57; x8c; x0b; x25; x19; xee; xa3; xa5; xa6; x61; x77; x74; x5d].

Definition key32_cipher_key : list byte :=
  [xa4; x0b; x6d; x44; x63; x46; x6d; x45; x6c; x2d; xfa; xa8; x44; xbe; x7c; x06;
   x1b; x1b; x29; x09; x7d; x2f; x46; x01; xcd; x6d; x4a; x4e; x7d; xcb; x5b; x39].

Definition key32_mac_key : list byte :=
  [x8a; x21; x8e; xcd; x3e; xb2; x89; xa5; x1c; x8d; x8f; x2e; xb5; xc0; xa8; x6b;
   xd3; x64; xe1; x4d; x13; x6b; x7e; x85; x43; x38; x01; xab; x54; x83; x59; xd9].

Definition key32_unused : list byte :=
  [xef; x32; x7d; x82; x15; xaa; x96; x72; x1a; x61; x09; xda; xb0; x4e; x33; xfb;
   x04; x41; x71; x7b; x72; x5f; x12; x06; x5b; xe3; x38; xe2; x68; xa9; x02; x2d].

End Samples.

(* ===================================================================== *)
(** * What a run of [decryptWhatsAppMedia] is made of *)
(* ===================================================================== *)

Module Run.

Import Node.

(** The initialization vector as the function holds it: a slice of the
    [ArrayBuffer] that [hkdfSync] returned, so an [ArrayBuffer] itself. *)
Definition iv_slice (key : list byte) : ArrayBuffer :=
  mkArrayBuffer (Spec.iv_of key).

(** What [Hmac.update] throws when it is handed the initialization vector. *)
Definition update_rejection (key : list byte) : error :=
  ERR_INVALID_ARG_TYPE "data" updatable (ArrayBuf (iv_slice key)).

Definition rejection_message : string :=
  "The " ++ dquote ++ "data" ++ dquote
  ++ " argument must be of type string or an instance of Buffer, TypedArray, "
  ++ "or DataView. Received an instance of ArrayBuffer".

(** The calls [decryptWhatsAppMedia] makes for a key that decodes to [key]. *)
Definition calls_made (key : list byte) : list call :=
  [ hkdfSync_call "sha256" key [] Spec.media_info 112;
    createHmac_call "sha256" (Spec.mac_key_of key);
    Hmac_update_call (ArrayBuf (iv_slice key)) ].

(** The text of a 32-byte key with blanks between its groups of four and an
    exclamation mark inside: none of these is in the base64 alphabet. *)
Definition spaced_key : string :=
  "AAEC AwQF BgcI!CQoL DA0O DxAR EhMU FRYX GBka Gxwd Hh8=".

(** The text of a 32-byte key whose last data character is a ['-'], which
    is not in the base64 alphabet and is in the decoder's table. *)
Definition dashed_key : string :=
  "AAECAwQFBgcICQoLDA0ODxAREhMUFRYXGBkaGxwdHh-=".

(** The text of [key32] with its first letter A replaced by the character
    U+0141, whose code unit has the low byte of A. *)
Definition stroke_key : string :=
  "ŁAECAwQFBgcICQoLDA0ODxAREhMUFRYXGBkaGxwdHh8=".

End Run.

(* ===================================================================== *)
(** * Facts about bytes and slices *)
(* ===================================================================== *)

Module BytesFacts.

Lemma bytes_eqb_eq a b : bytes_eqb a b = true <-> a = b.
Proof.
  unfold bytes_eqb. destruct (list_eq_dec _ a b); split; congruence.
Qed.

Lemma byte_of_N_to_N b : byte_of_N (Byte.to_N b) = b.
Proof.
  unfold byte_of_N.
  assert (H : (Byte.to_N b <= 255)%N) by apply Byte.to_N_bounded.
  rewrite N.mod_small by lia.
  now rewrite Byte.of_to_N.
Qed.

Lemma in_all_bytes b : In b all_bytes.
Proof.
  unfold all_bytes. apply in_map_iff. exists (Byte.to_nat b). split.
  - rewrite <- Byte.to_N_via_nat. apply byte_of_N_to_N.
  - apply in_seq. pose proof (Byte.to_nat_bounded b). lia.
Qed.

Lemma forall_bytes (P : byte -> bool) :
  forallb P all_bytes = true -> forall b, P b = true.
Proof.
  intros H b. rewrite forallb_forall in H. apply H, in_all_bytes.
Qed.

Lemma forall_bytes2 (P : byte -> byte -> bool) :
  forallb (fun a => forallb (P a) all_bytes) all_bytes = true ->
  forall a b, P a b = true.
Proof.
  intros H a b. apply forall_bytes. revert a. apply forall_bytes. exact H.
Qed.

Lemma slice_prefix b n :
  (0 <= n)%Z -> slice b 0 (Some n) = firstn (Z.to_nat n) b.
Proof.
  intros Hn. unfold slice, clamp_index. simpl.
  destruct (n <? 0)%Z eqn:E; [apply Z.ltb_lt in E; lia|].
  replace (Z.min 0 (Z.of_nat (length b))) with 0%Z by lia.
  rewrite Z.sub_0_r. simpl.
  destruct (Z.min_spec n (Z.of_nat (length b))) as [[Hlt ->]|[Hge ->]].
  - reflexivity.
  - rewrite Nat2Z.id. rewrite firstn_all.
    symmetry. apply firstn_all2. lia.
Qed.

(** [b.slice(0, -k)]: everything but the last [k] bytes. *)
Lemma slice_drop_last b k :
  (0 < k)%Z -> slice b 0 (Some (- k)%Z) = firstn (length b - Z.to_nat k) b.
Proof.
  intros Hk. unfold slice, clamp_index. simpl.
  destruct (- k <? 0)%Z eqn:E; [|apply Z.ltb_ge in E; lia].
  replace (Z.min 0 (Z.of_nat (length b))) with 0%Z by lia.
  rewrite Z.sub_0_r. simpl. f_equal. lia.
Qed.

(** [b.slice(-k)]: the last [k] bytes (all of [b] when it is shorter). *)
Lemma slice_last b k :
  (0 < k)%Z -> slice b (- k)%Z None = skipn (length b - Z.to_nat k) b.
Proof.
  intros Hk. unfold slice, clamp_index.
  destruct (- k <? 0)%Z eqn:E; [|apply Z.ltb_ge in E; lia].
  replace (Z.to_nat (Z.max (Z.of_nat (length b) + - k) 0))
    with (length b - Z.to_nat k)%nat by lia.
  apply firstn_all2. rewrite length_skipn. lia.
Qed.

(** Lines 29-30 of [decryptWhatsAppMedia] cut the payload in two without
    looking at its length: [data.slice(0, -10)] and [data.slice(-10)] are
    the two parts of [data] around the position 10 bytes before its end
    (its start when it is shorter). *)
Lemma slice_split b :
  slice b 0 (Some (-10)%Z) ++ slice b (-10) None = b.
Proof.
  change (-10)%Z with (Z.opp 10).
  rewrite (slice_drop_last b 10), (slice_last b 10) by lia.
  apply firstn_skipn.
Qed.

End BytesFacts.
Import BytesFacts.

(* ===================================================================== *)
(** * Facts about base64 *)
(* ===================================================================== *)

Module Base64Facts.

Import Base64.
Local Open Scope N_scope.

Example decode_foobar : decode "Zm9vYmFy" = bytes_of_string "foobar".
Proof. reflexivity. Qed.

Example encode_foobar : encode (bytes_of_string "foobar") = "Zm9vYmFy".
Proof. reflexivity. Qed.

Example encode_padding :
  encode (bytes_of_string "f") = "Zg==" /\ encode (bytes_of_string "fo") = "Zm8=".
Proof. split; reflexivity. Qed.

(** Whitespace and foreign characters are skipped, the URL-safe letters
    are read, and decoding ends at the first ['=']. *)
Example decode_lenient :
  decode "Zm 9v!YmFy" = bytes_of_string "foobar"
  /\ decode "-_-_" = decode "+/+/"
  /\ decode "Zg==Zm9v" = bytes_of_string "f"
  /\ decode "Z" = [].
Proof. repeat split. Qed.

(** A character outside ASCII is read by the low byte of its code unit:
    U+0141 as the letter A, U+00E9 (low byte E9) is skipped, and the first
    code unit D83D of U+1F600 as ['=']. *)
Example decode_low_bytes :
  low_bytes "Ł" = "A"
  /\ decode "Łm9v" = decode "Am9v"
  /\ decode "Zém9vYmFy" = bytes_of_string "foobar"
  /\ decode "Zg😀Zm9v" = bytes_of_string "f".
Proof. repeat split. Qed.

Lemma unbase64_base64_char n : n < 64 -> unbase64 (base64_char n) = Some n.
Proof.
  intros H.
  assert (E : forallb (fun k => match unbase64 (base64_char (N.of_nat k)) with
                                | Some m => m =? N.of_nat k
                                | None => false
                                end) (seq 0 64) = true) by (vm_compute; reflexivity).
  rewrite forallb_forall in E.
  specialize (E (N.to_nat n)). rewrite N2Nat.id in E.
  destruct (unbase64 (base64_char n)) as [m|].
  - f_equal. apply N.eqb_eq. apply E. apply in_seq. lia.
  - discriminate E. apply in_seq. lia.
Qed.

Lemma sextet1_lt a : sextet1 a < 64.
Proof.
  apply N.ltb_lt. revert a. apply forall_bytes. vm_compute. reflexivity.
Qed.

Lemma sextet2_lt a b : sextet2 a b < 64.
Proof.
  apply N.ltb_lt. revert a b.
  apply (forall_bytes2 (fun a b => sextet2 a b <? 64)). vm_compute. reflexivity.
Qed.

Lemma sextet3_lt b c : sextet3 b c < 64.
Proof.
  apply N.ltb_lt. revert b c.
  apply (forall_bytes2 (fun b c => sextet3 b c <? 64)). vm_compute. reflexivity.
Qed.

Lemma sextet4_lt c : sextet4 c < 64.
Proof.
  apply N.ltb_lt. revert c. apply forall_bytes. vm_compute. reflexivity.
Qed.

Lemma byte1_sextets a b : byte1 (sextet1 a) (sextet2 a b) = a.
Proof.
  apply Byte.byte_dec_bl. revert a b.
  apply (forall_bytes2 (fun a b => Byte.eqb (byte1 (sextet1 a) (sextet2 a b)) a)).
  vm_compute. reflexivity.
Qed.

Lemma sextet2_low a b : N.land (sextet2 a b) 15 = N.shiftr (Byte.to_N b) 4.
Proof.
  apply N.eqb_eq. revert a b.
  apply (forall_bytes2
           (fun a b => N.land (sextet2 a b) 15 =? N.shiftr (Byte.to_N b) 4)).
  vm_compute. reflexivity.
Qed.

Lemma sextet3_high b c :
  N.shiftr (N.land (sextet3 b c) 60) 2 = N.land (Byte.to_N b) 15.
Proof.
  apply N.eqb_eq. revert b c.
  apply (forall_bytes2
           (fun b c => N.shiftr (N.land (sextet3 b c) 60) 2
                       =? N.land (Byte.to_N b) 15)).
  vm_compute. reflexivity.
Qed.

Lemma nibbles_byte b :
  byte_of_N (N.lor (N.shiftl (N.shiftr (Byte.to_N b) 4) 4)
                   (N.land (Byte.to_N b) 15)) = b.
Proof.
  apply Byte.byte_dec_bl. revert b. apply forall_bytes. vm_compute. reflexivity.
Qed.

Lemma byte2_sextets a b c : byte2 (sextet2 a b) (sextet3 b c) = b.
Proof.
  unfold byte2. rewrite sextet2_low, sextet3_high. apply nibbles_byte.
Qed.

Lemma byte3_sextets b c : byte3 (sextet3 b c) (sextet4 c) = c.
Proof.
  apply Byte.byte_dec_bl. revert b c.
  apply (forall_bytes2 (fun b c => Byte.eqb (byte3 (sextet3 b c) (sextet4 c)) c)).
  vm_compute. reflexivity.
Qed.

Lemma decode_from_char ph n rest :
  n < 64 ->
  decode_from ph (String (base64_char n) rest) =
  match ph with
  | Group0 => decode_from (Group1 n) rest
  | Group1 hi => byte1 hi n :: decode_from (Group2 n) rest
  | Group2 hi => byte2 hi n :: decode_from (Group3 n) rest
  | Group3 hi => byte3 hi n :: decode_from Group0 rest
  end.
Proof.
  intros H. cbn [decode_from]. now rewrite (unbase64_base64_char n H).
Qed.

Lemma decode_from_padding ph rest : decode_from ph (String "="%char rest) = [].
Proof. reflexivity. Qed.

(** *** ASCII text is read as it is written *)

Lemma low_bytes_cons c rest :
  N_of_ascii c < 128 ->
  low_bytes (String c rest) = String c (low_bytes rest).
Proof.
  intros H. unfold low_bytes, code_units.
  cbn [list_ascii_of_string map code_points].
  apply N.ltb_lt in H. rewrite H. apply N.ltb_lt in H.
  cbn [flat_map]. unfold utf16 at 1.
  replace (N_of_ascii c <? 65536) with true by (symmetry; apply N.ltb_lt; lia).
  cbn [app map string_of_list_ascii].
  rewrite N.mod_small by lia. now rewrite ascii_N_embedding.
Qed.

Lemma low_bytes_plain s : plain s = true -> low_bytes s = s.
Proof.
  unfold plain. induction s as [|c rest IH]; [reflexivity|].
  cbn [list_ascii_of_string forallb]. intros H.
  apply andb_true_iff in H. destruct H as [Hc Hrest].
  rewrite low_bytes_cons by now apply N.ltb_lt.
  now rewrite IH.
Qed.

Lemma plain_cons c rest :
  plain (String c rest) = ((N_of_ascii c <? 128) && plain rest).
Proof. reflexivity. Qed.

Lemma get_beyond s k : (String.length s <= k)%nat -> String.get k s = None.
Proof.
  revert k. induction s as [|a s IH]; intros k H; [now destruct k|].
  destruct k as [|k]; cbn [String.length] in H; [lia|].
  cbn [String.get]. apply IH. lia.
Qed.

Lemma plain_base64_char n : (N_of_ascii (base64_char n) <? 128) = true.
Proof.
  destruct (N.ltb_spec n 64) as [H|H].
  - assert (E : forallb (fun k => N_of_ascii (base64_char (N.of_nat k)) <? 128)
                        (seq 0 64) = true) by (vm_compute; reflexivity).
    rewrite forallb_forall in E.
    specialize (E (N.to_nat n)). rewrite N2Nat.id in E.
    apply E, in_seq. lia.
  - unfold base64_char. rewrite get_beyond; [reflexivity|].
    change (String.length alphabet) with 64%nat. lia.
Qed.

Lemma plain_encode_bounded n :
  forall buf, (length buf <= n)%nat -> plain (encode buf) = true.
Proof.
  induction n as [n IH] using lt_wf_ind. intros buf Hlen.
  destruct buf as [|a [|b [|c rest]]]; cbn [encode];
    rewrite ?plain_cons, ?plain_base64_char; try reflexivity.
  cbn [andb]. cbn [length] in Hlen. apply (IH (length rest)); lia.
Qed.

Lemma plain_encode buf : plain (encode buf) = true.
Proof. now apply (plain_encode_bounded (length buf)). Qed.

Lemma decode_plain s : plain s = true -> decode s = decode_from Group0 s.
Proof. intros H. unfold decode. now rewrite low_bytes_plain. Qed.

Lemma decode_encode_bounded n :
  forall buf, (length buf <= n)%nat -> decode_from Group0 (encode buf) = buf.
Proof.
  induction n as [n IH] using lt_wf_ind. intros buf Hlen.
  destruct buf as [|a [|b [|c rest]]].
  - reflexivity.
  - cbn [encode].
    rewrite decode_from_char by apply sextet1_lt.
    rewrite decode_from_char by apply sextet2_lt.
    rewrite decode_from_padding. now rewrite byte1_sextets.
  - cbn [encode].
    rewrite decode_from_char by apply sextet1_lt.
    rewrite decode_from_char by apply sextet2_lt.
    rewrite decode_from_char by apply sextet3_lt.
    rewrite decode_from_padding.
    now rewrite byte1_sextets, byte2_sextets.
  - cbn [encode].
    rewrite decode_from_char by apply sextet1_lt.
    rewrite decode_from_char by apply sextet2_lt.
    rewrite decode_from_char by apply sextet3_lt.
    rewrite decode_from_char by apply sextet4_lt.
    rewrite byte1_sextets, byte2_sextets, byte3_sextets.
    do 3 f_equal. cbn [length] in Hlen.
    apply (IH (length rest)); lia.
Qed.

Lemma decode_encode buf : decode (encode buf) = buf.
Proof.
  rewrite decode_plain by apply plain_encode.
  now apply (decode_encode_bounded (length buf)).
Qed.

Lemma encode_injective a b : encode a = encode b -> a = b.
Proof.
  intros H. rewrite <- (decode_encode a), <- (decode_encode b). now rewrite H.
Qed.

End Base64Facts.

(* ===================================================================== *)
(** * Facts about the primitives *)
(* ===================================================================== *)

Module PrimitiveFacts.

Lemma length_sha256 msg : length (SHA256.sha256 msg) = 32.
Proof. reflexivity. Qed.

Lemma length_hmac_sha256 key msg : length (SHA256.hmac_sha256 key msg) = 32.
Proof. reflexivity. Qed.

Lemma inv_sub_byte_sub_byte b : AES256.inv_sub_byte (AES256.sub_byte b) = b.
Proof.
  apply Byte.byte_dec_bl. revert b. apply forall_bytes. vm_compute. reflexivity.
Qed.

End PrimitiveFacts.

(* ===================================================================== *)
(** * More facts: lenient decoding, key derivation *)
(* ===================================================================== *)

Module LenientFacts.

Import Base64 Base64Facts.

Lemma decode_from_strip ph s : decode_from ph (strip s) = decode_from ph s.
Proof.
  revert ph. induction s as [|c rest IH]; intros ph; [reflexivity|].
  cbn [strip]. unfold foreign.
  destruct (unbase64 c) as [lo|] eqn:Hc.
  - cbn [decode_from]. rewrite Hc. destruct ph; now rewrite IH.
  - destruct (Ascii.eqb c "="%char) eqn:Heq; cbn [negb].
    + cbn [decode_from]. now rewrite Hc, Heq.
    + rewrite IH. cbn [decode_from]. now rewrite Hc, Heq.
Qed.

(** What is decoded is what is left of the low bytes once the foreign
    ones are taken out. *)
Lemma decode_strip s : decode s = decode_from Group0 (strip (low_bytes s)).
Proof. unfold decode. now rewrite decode_from_strip. Qed.

Lemma symbols_strip s : symbols (strip s) = symbols s.
Proof.
  induction s as [|c rest IH]; [reflexivity|].
  cbn [strip]. unfold foreign.
  destruct (unbase64 c) as [lo|] eqn:Hc.
  - cbn [symbols]. now rewrite Hc, IH.
  - destruct (Ascii.eqb c "="%char) eqn:Heq; cbn [negb].
    + cbn [symbols]. now rewrite Hc, Heq.
    + rewrite IH. cbn [symbols]. now rewrite Hc, Heq.
Qed.

(** The number of bytes decoded, from the number of data characters. *)
Lemma length_decode_from ph s :
  length (decode_from ph s)
  = 3 * (phase_index ph + symbols s) / 4 - 3 * phase_index ph / 4.
Proof.
  revert ph. induction s as [|c rest IH]; intros ph.
  - cbn [decode_from symbols length]. rewrite Nat.add_0_r. lia.
  - cbn [decode_from symbols].
    destruct (unbase64 c) as [lo|].
    + destruct ph; cbn [length]; rewrite IH; cbn [phase_index];
        repeat match goal with
               | |- context [?a / 4] =>
                   let q := fresh "q" in
                   let E := fresh "E" in
                   pose proof (Nat.div_mod_eq a 4) as E;
                   pose proof (Nat.mod_upper_bound a 4 ltac:(lia));
                   set (q := a / 4) in *; clearbody q
               end; lia.
    + destruct (Ascii.eqb c "="%char).
      * cbn [length]. rewrite Nat.add_0_r. lia.
      * apply IH.
Qed.

Lemma length_decode s : length (decode s) = 3 * symbols (low_bytes s) / 4.
Proof.
  unfold decode. rewrite length_decode_from. cbn [phase_index].
  rewrite Nat.add_0_l. change (3 * 0 / 4) with 0. lia.
Qed.

Lemma length_decode_32 s :
  (length (decode s) =? 32)%nat = (symbols (low_bytes s) =? 43)%nat.
Proof.
  rewrite length_decode.
  pose proof (Nat.div_mod_eq (3 * symbols (low_bytes s)) 4) as E.
  pose proof (Nat.mod_upper_bound (3 * symbols (low_bytes s)) 4 ltac:(lia)) as U.
  destruct (Nat.eqb_spec (3 * symbols (low_bytes s) / 4) 32) as [H|H];
    destruct (Nat.eqb_spec (symbols (low_bytes s)) 43) as [K|K];
    try reflexivity; exfalso; lia.
Qed.

Lemma foreign_base64_char n : (n < 64)%N -> foreign (base64_char n) = false.
Proof.
  intros H. unfold foreign. now rewrite (unbase64_base64_char n H).
Qed.

Lemma strip_cons_char n rest :
  (n < 64)%N -> strip (String (base64_char n) rest) = String (base64_char n) (strip rest).
Proof.
  intros H. cbn [strip]. now rewrite (foreign_base64_char n H).
Qed.

Lemma strip_encode_bounded n :
  forall buf, length buf <= n -> strip (encode buf) = encode buf.
Proof.
  induction n as [n IH] using lt_wf_ind. intros buf Hlen.
  destruct buf as [|a [|b [|c rest]]]; cbn [encode].
  - reflexivity.
  - rewrite strip_cons_char by apply sextet1_lt.
    rewrite strip_cons_char by apply sextet2_lt.
    reflexivity.
  - rewrite strip_cons_char by apply sextet1_lt.
    rewrite strip_cons_char by apply sextet2_lt.
    rewrite strip_cons_char by apply sextet3_lt.
    reflexivity.
  - rewrite strip_cons_char by apply sextet1_lt.
    rewrite strip_cons_char by apply sextet2_lt.
    rewrite strip_cons_char by apply sextet3_lt.
    rewrite strip_cons_char by apply sextet4_lt.
    do 4 f_equal. cbn [length] in Hlen. apply (IH (length rest)); lia.
Qed.

(** An encoding holds no foreign character. *)
Lemma strip_canonical s : canonical s -> strip s = s.
Proof.
  intros [buf ->]. now apply (strip_encode_bounded (length buf)).
Qed.

(** The decoder's table holds the data characters and no other. *)
Lemma unbase64_is_data c :
  Spec.is_data c = match unbase64 c with Some _ => true | None => false end.
Proof. destruct c as [[] [] [] [] [] [] [] []]; reflexivity. Qed.

Lemma unbase64_padding c : Ascii.eqb c "="%char = true -> unbase64 c = None.
Proof. intros H. apply Ascii.eqb_eq in H. now subst. Qed.

Lemma symbols_data_before_end s : symbols s = Spec.data_before_end s.
Proof.
  induction s as [|c rest IH]; [reflexivity|].
  cbn [symbols Spec.data_before_end]. rewrite unbase64_is_data.
  destruct (Ascii.eqb c "="%char) eqn:E.
  - now rewrite (unbase64_padding c E).
  - destruct (unbase64 c); now rewrite IH.
Qed.

End LenientFacts.

Module DeriveFacts.

Import SHA256 PrimitiveFacts.

Lemma length_hkdf_blocks n prk info prev i :
  length (hkdf_blocks n prk info prev i) = 32 * n.
Proof.
  revert prev i. induction n as [|n IH]; intros prev i; [reflexivity|].
  cbn [hkdf_blocks]. rewrite length_app, length_hmac_sha256, IH. lia.
Qed.

Lemma length_hkdf_sha256 ikm salt info len :
  length (hkdf_sha256 ikm salt info len) = len.
Proof.
  unfold hkdf_sha256, hkdf_expand.
  rewrite length_firstn, length_hkdf_blocks.
  pose proof (Nat.div_mod_eq (len + 31) 32) as E.
  pose proof (Nat.mod_upper_bound (len + 31) 32). lia.
Qed.

Lemma slice_range (b : Buffer) (i j : nat) :
  i <= j <= length b ->
  slice b (Z.of_nat i) (Some (Z.of_nat j)) = firstn (j - i) (skipn i b).
Proof.
  intros H. unfold slice, clamp_index.
  destruct (Z.of_nat i <? 0)%Z eqn:Ei; [apply Z.ltb_lt in Ei; lia|].
  destruct (Z.of_nat j <? 0)%Z eqn:Ej; [apply Z.ltb_lt in Ej; lia|].
  rewrite !Z.min_l by lia.
  rewrite <- Nat2Z.inj_sub by lia. now rewrite !Nat2Z.id.
Qed.

Lemma length_expanded key : length (Spec.expanded key) = 112.
Proof. apply length_hkdf_sha256. Qed.

Lemma slice_iv key :
  slice (Spec.expanded key) 0 (Some 16%Z) = Spec.iv_of key.
Proof.
  change 0%Z with (Z.of_nat 0). change 16%Z with (Z.of_nat 16).
  rewrite slice_range by (rewrite length_expanded; lia). reflexivity.
Qed.

Lemma slice_cipher_key key :
  slice (Spec.expanded key) 16 (Some 48%Z) = Spec.cipher_key_of key.
Proof.
  change 16%Z with (Z.of_nat 16). change 48%Z with (Z.of_nat 48).
  rewrite slice_range by (rewrite length_expanded; lia). reflexivity.
Qed.

Lemma slice_mac_key key :
  slice (Spec.expanded key) 48 (Some 80%Z) = Spec.mac_key_of key.
Proof.
  change 48%Z with (Z.of_nat 48). change 80%Z with (Z.of_nat 80).
  rewrite slice_range by (rewrite length_expanded; lia). reflexivity.
Qed.

Lemma length_iv key : length (Spec.iv_of key) = 16.
Proof.
  unfold Spec.iv_of. rewrite length_firstn, length_expanded. reflexivity.
Qed.

Lemma length_cipher_key key : length (Spec.cipher_key_of key) = 32.
Proof.
  unfold Spec.cipher_key_of.
  rewrite length_firstn, length_skipn, length_expanded. reflexivity.
Qed.

Lemma length_mac_key key : length (Spec.mac_key_of key) = 32.
Proof.
  unfold Spec.mac_key_of.
  rewrite length_firstn, length_skipn, length_expanded. reflexivity.
Qed.

End DeriveFacts.

(* ===================================================================== *)
(** * How [decryptWhatsAppMedia] runs *)
(* ===================================================================== *)

Module DecryptFacts.

Import Node CryptoUtils DeriveFacts Run.

Lemma decrypt_body_run (s : string) (p : Buffer) :
  decrypt_body (Str s) (Buf p)
  = (calls_made (Base64.decode s), Throw (update_rejection (Base64.decode s))).
Proof.
  unfold calls_made, update_rejection, iv_slice.
  rewrite <- slice_iv, <- slice_mac_key. reflexivity.
Qed.

Lemma decryptWhatsAppMedia_run (s : string) (p : Buffer) :
  decryptWhatsAppMedia (Str s) (Buf p)
  = (calls_made (Base64.decode s),
     Throw (Error (decrypt_prefix ++ message (update_rejection (Base64.decode s))))).
Proof.
  unfold decryptWhatsAppMedia. rewrite decrypt_body_run. reflexivity.
Qed.

(** The message does not depend on the key or on the payload. *)
Lemma message_update_rejection key :
  message (update_rejection key) = rejection_message.
Proof. reflexivity. Qed.


(** ** The [catch] block *)

Lemma try_catch_throw {A} (m : M A) (h : error -> M A) e :
  result m = Throw e ->
  try_catch m h = (calls m ++ calls (h e), result (h e)).
Proof.
  destruct m as [t r]. cbn [result snd]. intros ->. cbn [try_catch calls fst].
  now destruct (h e).
Qed.

Lemma try_catch_return {A} (m : M A) (h : error -> M A) a :
  result m = Return a -> try_catch m h = m.
Proof.
  destruct m as [t r]. cbn [result snd]. intros ->. reflexivity.
Qed.

(** ** Lines 39-53 *)

Lemma verify_then_decipher_mismatch iv cipherKey media received computed :
  length received = length computed ->
  received <> computed ->
  verify_then_decipher iv cipherKey media received computed
  = ([timingSafeEqual_call received computed], Throw (Error mac_failure)).
Proof.
  intros Hlen Hneq. unfold verify_then_decipher, timingSafeEqual.
  cbn [bind log]. rewrite Hlen, Nat.eqb_refl. cbn [negb].
  destruct (bytes_eqb received computed) eqn:E.
  - apply bytes_eqb_eq in E. contradiction.
  - reflexivity.
Qed.


(** What the [catch] block rethrows holds the message and nothing else. *)
Lemma decrypt_catch_result (body : M Buffer) (e : error) :
  result body = Throw e ->
  result (try_catch body decrypt_catch)
  = Throw (mkError "Error" "" (decrypt_prefix ++ message e)).
Proof.
  intros H. rewrite (try_catch_throw body decrypt_catch e H). reflexivity.
Qed.

End DecryptFacts.

(* ===================================================================== *)
(** * The cipher: the inverse cipher undoes the cipher *)
(* ===================================================================== *)

Module CipherFacts.

Import Bytes BytesFacts PrimitiveFacts AES256 Node CryptoUtils.
Local Open Scope nat_scope.

(** ** Bytes as bit vectors *)

Lemma to_N_xor a b : Byte.to_N (xor a b) = N.lxor (Byte.to_N a) (Byte.to_N b).
Proof.
  apply N.eqb_eq. revert a b.
  apply (forall_bytes2
           (fun a b => N.eqb (Byte.to_N (xor a b))
                             (N.lxor (Byte.to_N a) (Byte.to_N b)))).
  vm_compute. reflexivity.
Qed.

Lemma byte_bits_eq a b :
  (forall n, N.testbit (Byte.to_N a) n = N.testbit (Byte.to_N b) n) -> a = b.
Proof.
  intros H. rewrite <- (byte_of_N_to_N a), <- (byte_of_N_to_N b).
  f_equal. now apply N.bits_inj.
Qed.

Lemma xtime_xor a b : xtime (xor a b) = xor (xtime a) (xtime b).
Proof.
  apply Byte.byte_dec_bl. revert a b.
  apply (forall_bytes2
           (fun a b => Byte.eqb (xtime (xor a b)) (xor (xtime a) (xtime b)))).
  vm_compute. reflexivity.
Qed.

Ltac xor_bits :=
  apply byte_bits_eq; intros ?n;
  repeat rewrite xtime_xor;
  repeat rewrite to_N_xor;
  repeat rewrite N.lxor_spec;
  btauto.

Lemma xor_involutive a k : xor (xor a k) k = a.
Proof. xor_bits. Qed.

Lemma inv_mix_column_mix_column a0 a1 a2 a3 :
  match mix_column a0 a1 a2 a3 with
  | [b0; b1; b2; b3] => inv_mix_column b0 b1 b2 b3
  | _ => []
  end = [a0; a1; a2; a3].
Proof.
  cbn [mix_column]. unfold inv_mix_column, mul9, mul11, mul13, mul14, mul2, mul3.
  f_equal; [|f_equal; [|f_equal; [|f_equal]]]; xor_bits.
Qed.

Lemma block16 (st : list byte) :
  length st = 16 ->
  exists s0 s1 s2 s3 s4 s5 s6 s7 s8 s9 s10 s11 s12 s13 s14 s15,
    st = [s0; s1; s2; s3; s4; s5; s6; s7; s8; s9; s10; s11; s12; s13; s14; s15].
Proof.
  intros H.
  do 16 (destruct st as [|? st]; [discriminate H|]).
  destruct st; [|discriminate H].
  repeat eexists.
Qed.

Lemma inv_shift_rows_shift_rows st :
  length st = 16 -> inv_shift_rows (shift_rows st) = st.
Proof.
  intros H. destruct (block16 st H) as (s0 & s1 & s2 & s3 & s4 & s5 & s6 & s7
    & s8 & s9 & s10 & s11 & s12 & s13 & s14 & s15 & ->). reflexivity.
Qed.

Lemma inv_mix_columns_mix_columns st :
  length st = 16 -> inv_mix_columns (mix_columns st) = st.
Proof.
  intros H. destruct (block16 st H) as (s0 & s1 & s2 & s3 & s4 & s5 & s6 & s7
    & s8 & s9 & s10 & s11 & s12 & s13 & s14 & s15 & ->).
  cbn [mix_columns mix_column app inv_mix_columns].
  pose proof (inv_mix_column_mix_column s0 s1 s2 s3) as E0.
  pose proof (inv_mix_column_mix_column s4 s5 s6 s7) as E1.
  pose proof (inv_mix_column_mix_column s8 s9 s10 s11) as E2.
  pose proof (inv_mix_column_mix_column s12 s13 s14 s15) as E3.
  cbn [mix_column] in E0, E1, E2, E3.
  rewrite E0, E1, E2, E3. reflexivity.
Qed.

Lemma inv_sub_bytes_sub_bytes st : inv_sub_bytes (sub_bytes st) = st.
Proof.
  unfold inv_sub_bytes, sub_bytes. rewrite map_map.
  rewrite <- (map_id st) at 2. apply map_ext. apply inv_sub_byte_sub_byte.
Qed.

Lemma length_xor_bytes a k : length (xor_bytes a k) = Nat.min (length a) (length k).
Proof.
  unfold xor_bytes. now rewrite length_map, length_combine.
Qed.

Lemma xor_bytes_involutive a k :
  length a <= length k -> xor_bytes (xor_bytes a k) k = a.
Proof.
  unfold xor_bytes. revert k. induction a as [|x a IH]; intros [|y k] H;
    cbn [length] in H; try reflexivity; try lia.
  cbn [combine map fst snd]. rewrite xor_involutive. f_equal. apply IH. lia.
Qed.

Lemma length_shift_rows st : length (shift_rows st) = length st.
Proof.
  unfold shift_rows.
  do 17 (destruct st as [|? st]; [reflexivity|]). reflexivity.
Qed.

Lemma length_sub_bytes st : length (sub_bytes st) = length st.
Proof. apply length_map. Qed.

Lemma length_mix_columns st : length (mix_columns st) = length st.
Proof.
  unfold mix_columns.
  do 17 (destruct st as [|? st]; [reflexivity|]). reflexivity.
Qed.

Lemma length_rounds ks plain :
  blocks16 ks -> length plain = 16 -> length (rounds ks plain) = 16.
Proof.
  intros Hks Hp. induction Hks as [|k ks Hk Hks IH]; [exact Hp|].
  destruct ks as [|k' ks'].
  - cbn [rounds]. rewrite length_shift_rows, length_sub_bytes.
    unfold add_round_key. rewrite length_xor_bytes. lia.
  - change (rounds (k :: k' :: ks') plain)
      with (shift_rows (sub_bytes (add_round_key
              (mix_columns (rounds (k' :: ks') plain)) k))).
    rewrite length_shift_rows, length_sub_bytes.
    unfold add_round_key. rewrite length_xor_bytes, length_mix_columns, IH. lia.
Qed.

Lemma inv_rounds_rounds ks plain :
  blocks16 ks -> length plain = 16 -> inv_rounds ks (rounds ks plain) = plain.
Proof.
  intros Hks Hp. induction Hks as [|k ks Hk Hks IH]; [reflexivity|].
  destruct ks as [|k' ks'].
  - cbn [rounds inv_rounds].
    rewrite inv_shift_rows_shift_rows
      by (rewrite length_sub_bytes; unfold add_round_key;
          rewrite length_xor_bytes; lia).
    rewrite inv_sub_bytes_sub_bytes.
    unfold add_round_key. apply xor_bytes_involutive. lia.
  - change (rounds (k :: k' :: ks') plain)
      with (shift_rows (sub_bytes (add_round_key
              (mix_columns (rounds (k' :: ks') plain)) k))).
    change (inv_rounds (k :: k' :: ks') ?st)
      with (inv_rounds (k' :: ks')
              (inv_mix_columns
                 (add_round_key (inv_sub_bytes (inv_shift_rows st)) k))).
    assert (Hr : length (rounds (k' :: ks') plain) = 16)
      by now apply length_rounds.
    rewrite inv_shift_rows_shift_rows
      by (rewrite length_sub_bytes; unfold add_round_key;
          rewrite length_xor_bytes, length_mix_columns; lia).
    rewrite inv_sub_bytes_sub_bytes.
    unfold add_round_key.
    rewrite xor_bytes_involutive by (rewrite length_mix_columns; lia).
    rewrite inv_mix_columns_mix_columns by exact Hr.
    exact IH.
Qed.

Lemma length_cipher rks block :
  blocks16 rks -> rks <> [] -> length block = 16 -> length (cipher rks block) = 16.
Proof.
  intros Hks Hne Hb. unfold cipher.
  assert (Hrev : blocks16 (rev rks)) by (apply Forall_rev; exact Hks).
  destruct (rev rks) as [|k ks] eqn:E.
  - apply (f_equal (@rev _)) in E. rewrite rev_involutive in E. contradiction.
  - inversion Hrev as [|? ? Hk Hks']; subst.
    unfold add_round_key. rewrite length_xor_bytes, length_rounds by assumption. lia.
Qed.

Lemma inv_cipher_cipher rks block :
  blocks16 rks -> length block = 16 -> inv_cipher rks (cipher rks block) = block.
Proof.
  intros Hks Hb. unfold inv_cipher, cipher.
  assert (Hrev : blocks16 (rev rks)) by (apply Forall_rev; exact Hks).
  destruct (rev rks) as [|k ks]; [reflexivity|].
  inversion Hrev as [|? ? Hk Hks']; subst.
  unfold add_round_key.
  rewrite xor_bytes_involutive by (rewrite length_rounds by assumption; lia).
  now apply inv_rounds_rounds.
Qed.

(** ** The key schedule gives fifteen 16-byte round keys *)

Lemma length_chunks size n bs : length (chunks size n bs) = n.
Proof.
  revert bs. induction n as [|n IH]; intros bs; [reflexivity|].
  cbn [chunks length]. now rewrite IH.
Qed.

Lemma chunks_blocks size n bs :
  size * n <= length bs -> Forall (fun k => length k = size) (chunks size n bs).
Proof.
  revert bs. induction n as [|n IH]; intros bs H; [constructor|].
  cbn [chunks]. constructor.
  - rewrite length_firstn. lia.
  - apply IH. rewrite length_skipn. lia.
Qed.

Lemma length_concat_words ws : words4 ws -> length (concat ws) = 4 * length ws.
Proof.
  intros H. induction H as [|w ws Hw Hws IH]; [reflexivity|].
  cbn [concat length]. rewrite length_app, Hw, IH. lia.
Qed.

Lemma nth_words4 ws i : words4 ws -> i < length ws -> length (nth i ws []) = 4.
Proof.
  intros H Hi. unfold words4 in H. rewrite Forall_forall in H.
  apply H. now apply nth_In.
Qed.

Lemma length_rot_word w : length (rot_word w) = length w.
Proof.
  destruct w as [|a rest]; [reflexivity|].
  cbn [rot_word]. rewrite length_app. cbn [length]. lia.
Qed.

Lemma expand_key_words n i rcon ws :
  words4 ws -> 8 <= length ws ->
  words4 (expand_key n i rcon ws) /\ length (expand_key n i rcon ws) = n + length ws.
Proof.
  revert i rcon ws. induction n as [|n IH]; intros i rcon ws Hws Hlen.
  - split; [exact Hws|reflexivity].
  - cbn [expand_key].
    match goal with
    | |- words4 (expand_key n ?i' ?r' (?w :: ws)) /\ _ =>
        assert (Hw : length w = 4)
    end.
    { rewrite length_xor_bytes.
      rewrite (nth_words4 ws 7 Hws) by lia.
      assert (Hp : length (nth 0 ws []) = 4) by (apply nth_words4; [exact Hws|lia]).
      destruct (i mod 8 =? 0).
      - rewrite length_xor_bytes. unfold sub_word.
        rewrite length_map, length_rot_word, Hp. reflexivity.
      - destruct (i mod 8 =? 4).
        + unfold sub_word. rewrite length_map, Hp. reflexivity.
        + rewrite Hp. reflexivity. }
    destruct (IH (S i) (if i mod 8 =? 0 then xtime rcon else rcon)
                 (xor_bytes (nth 7 ws [])
                    (if i mod 8 =? 0
                     then xor_bytes (sub_word (rot_word (nth 0 ws []))) [rcon; x00; x00; x00]
                     else if i mod 8 =? 4 then sub_word (nth 0 ws []) else nth 0 ws [])
                  :: ws)) as [H1 H2].
    + constructor; assumption.
    + cbn [length]. lia.
    + split; [exact H1|]. rewrite H2. cbn [length]. lia.
Qed.

Lemma round_keys_blocks key :
  length key = 32 ->
  blocks16 (round_keys key) /\ length (round_keys key) = 15.
Proof.
  intros Hkey. unfold round_keys.
  assert (H0 : words4 (rev (chunks 4 8 key)))
    by (apply Forall_rev, chunks_blocks; lia).
  assert (L0 : length (rev (chunks 4 8 key)) = 8)
    by (rewrite length_rev; apply length_chunks).
  destruct (expand_key_words 52 8 x01 (rev (chunks 4 8 key)) H0) as [H1 H2];
    [lia|].
  split; [|apply length_chunks].
  apply chunks_blocks.
  rewrite length_concat_words by (apply Forall_rev; exact H1).
  rewrite length_rev, H2, L0. lia.
Qed.

(** ** CBC decryption undoes CBC encryption *)

Lemma firstn_plus {A} (a b : nat) (l : list A) :
  firstn (a + b) l = firstn a l ++ firstn b (skipn a l).
Proof.
  revert l. induction a as [|a IH]; intros l; [reflexivity|].
  destruct l as [|x l]; cbn [Nat.add firstn skipn app].
  - now rewrite firstn_nil.
  - now rewrite IH.
Qed.

Lemma length_cbc_encrypt n rks prev pt :
  blocks16 rks -> rks <> [] -> length prev = 16 -> 16 * n <= length pt ->
  length (cbc_encrypt n rks prev pt) = 16 * n.
Proof.
  intros Hks Hne. revert prev pt. induction n as [|n IH]; intros prev pt Hp Hpt;
    [reflexivity|].
  cbn [cbc_encrypt]. rewrite length_app.
  assert (Hc : length (cipher rks (xor_bytes (firstn 16 pt) prev)) = 16).
  { apply length_cipher; try assumption.
    rewrite length_xor_bytes, length_firstn. lia. }
  rewrite Hc, IH; [lia|exact Hc|rewrite length_skipn; lia].
Qed.

Lemma cbc_decrypt_encrypt n rks prev pt :
  blocks16 rks -> rks <> [] -> length prev = 16 -> 16 * n <= length pt ->
  cbc_decrypt n rks prev (cbc_encrypt n rks prev pt) = firstn (16 * n) pt.
Proof.
  intros Hks Hne. revert prev pt. induction n as [|n IH]; intros prev pt Hp Hpt.
  - reflexivity.
  - cbn [cbc_encrypt cbc_decrypt].
    set (c := cipher rks (xor_bytes (firstn 16 pt) prev)).
    assert (Hx : length (xor_bytes (firstn 16 pt) prev) = 16)
      by (rewrite length_xor_bytes, length_firstn; lia).
    assert (Hc : length c = 16) by (apply length_cipher; assumption).
    rewrite firstn_app, Hc, Nat.sub_diag, firstn_all2, firstn_O, app_nil_r by lia.
    rewrite skipn_app, Hc, Nat.sub_diag, skipn_all2, skipn_O by lia.
    cbn [app].
    unfold c at 1. rewrite inv_cipher_cipher by assumption.
    rewrite xor_bytes_involutive; [|rewrite length_firstn; lia].
    rewrite IH; [|exact Hc|rewrite length_skipn; lia].
    replace (16 * S n) with (16 + 16 * n) by lia.
    now rewrite firstn_plus.
Qed.

(** ** Lengths on the decryption side *)

Lemma length_inv_shift_rows st : length (inv_shift_rows st) = length st.
Proof.
  unfold inv_shift_rows.
  do 17 (destruct st as [|? st]; [reflexivity|]). reflexivity.
Qed.

Lemma length_inv_mix_columns st : length (inv_mix_columns st) = length st.
Proof.
  unfold inv_mix_columns.
  do 17 (destruct st as [|? st]; [reflexivity|]). reflexivity.
Qed.

Lemma length_inv_sub_bytes st : length (inv_sub_bytes st) = length st.
Proof. apply length_map. Qed.

Lemma length_inv_rounds ks st :
  blocks16 ks -> length st = 16 -> length (inv_rounds ks st) = 16.
Proof.
  intros Hks. revert st. induction Hks as [|k ks Hk Hks IH]; intros st Hst;
    [exact Hst|].
  destruct ks as [|k' ks'].
  - cbn [inv_rounds]. unfold add_round_key.
    rewrite length_xor_bytes, length_inv_sub_bytes, length_inv_shift_rows. lia.
  - change (inv_rounds (k :: k' :: ks') st)
      with (inv_rounds (k' :: ks')
              (inv_mix_columns
                 (add_round_key (inv_sub_bytes (inv_shift_rows st)) k))).
    apply IH. unfold add_round_key.
    rewrite length_inv_mix_columns, length_xor_bytes, length_inv_sub_bytes,
      length_inv_shift_rows. lia.
Qed.

Lemma length_inv_cipher rks c :
  blocks16 rks -> length c = 16 -> length (inv_cipher rks c) = 16.
Proof.
  intros Hks Hc. unfold inv_cipher.
  assert (Hrev : blocks16 (rev rks)) by (apply Forall_rev; exact Hks).
  destruct (rev rks) as [|k ks]; [exact Hc|].
  inversion Hrev as [|? ? Hk Hks']; subst.
  apply length_inv_rounds; [exact Hks'|].
  unfold add_round_key. rewrite length_xor_bytes. lia.
Qed.

Lemma length_cbc_decrypt n rks prev ct :
  blocks16 rks -> length prev = 16 -> 16 * n <= length ct ->
  length (cbc_decrypt n rks prev ct) = 16 * n.
Proof.
  intros Hks. revert prev ct. induction n as [|n IH]; intros prev ct Hp Hct;
    [reflexivity|].
  cbn [cbc_decrypt]. rewrite length_app, length_xor_bytes.
  rewrite length_inv_cipher by (try assumption; rewrite length_firstn; lia).
  rewrite IH; [lia|rewrite length_firstn; lia|rewrite length_skipn; lia].
Qed.

Lemma cbc_decrypt_step n rks prev ct :
  cbc_decrypt (S n) rks prev ct
  = xor_bytes (inv_cipher rks (firstn 16 ct)) prev
    ++ cbc_decrypt n rks (firstn 16 ct) (skipn 16 ct).
Proof. reflexivity. Qed.

Lemma chain_at_step q prev ct :
  chain_at q (firstn 16 ct) (skipn 16 ct) = chain_at (S q) prev ct.
Proof.
  unfold chain_at. destruct q as [|q'].
  - reflexivity.
  - cbn [Nat.eqb]. rewrite skipn_skipn. do 2 f_equal. lia.
Qed.

Lemma cbc_decrypt_split q rks prev ct :
  cbc_decrypt (q + 1) rks prev ct
  = cbc_decrypt q rks prev ct
    ++ cbc_decrypt 1 rks (chain_at q prev ct) (skipn (16 * q) ct).
Proof.
  revert prev ct. induction q as [|q IH]; intros prev ct.
  - reflexivity.
  - change (S q + 1) with (S (q + 1)).
    rewrite (cbc_decrypt_step (q + 1)), (cbc_decrypt_step q).
    rewrite IH, <- app_assoc. do 2 f_equal.
    rewrite skipn_skipn, chain_at_step with (prev := prev).
    do 2 f_equal. lia.
Qed.

(** ** PKCS#7 padding and [unpad] *)

Lemma to_N_byte_of_N n : (n < 256)%N -> Byte.to_N (byte_of_N n) = n.
Proof.
  intros H. unfold byte_of_N. rewrite N.mod_small by exact H.
  destruct (Byte.of_N n) eqn:E.
  - now apply Byte.to_of_N.
  - apply Byte.of_N_None_iff in E. lia.
Qed.

Lemma to_nat_pad_byte n : n <= 16 -> Byte.to_nat (byte_of_N (N.of_nat n)) = n.
Proof.
  intros H. rewrite Byte.to_nat_via_N, to_N_byte_of_N by lia. lia.
Qed.

Lemma last_repeat (p : byte) n t : 0 < n -> last (t ++ repeat p n) x00 = p.
Proof.
  intros H. destruct n as [|n]; [lia|].
  replace (repeat p (S n)) with (repeat p n ++ [p])
    by (rewrite <- repeat_cons; reflexivity).
  rewrite app_assoc. apply last_last.
Qed.

Lemma forallb_eqb_repeat (p : byte) n : forallb (Byte.eqb p) (repeat p n) = true.
Proof.
  induction n as [|n IH]; [reflexivity|].
  cbn [repeat forallb]. rewrite IH. now rewrite (Byte.byte_dec_lb (x:=p) eq_refl).
Qed.

Lemma unpad_padded t n :
  1 <= n <= 16 -> length t = 16 - n ->
  unpad (t ++ repeat (byte_of_N (N.of_nat n)) n) = Some t.
Proof.
  intros Hn Ht. unfold unpad.
  rewrite last_repeat by lia. rewrite to_nat_pad_byte by lia.
  replace (n =? 0) with false by (symmetry; apply Nat.eqb_neq; lia).
  replace (16 <? n) with false by (symmetry; apply Nat.ltb_ge; lia).
  cbn [orb].
  rewrite skipn_app, Ht, Nat.sub_diag, skipn_O, skipn_all2 by lia.
  cbn [app]. rewrite forallb_eqb_repeat.
  rewrite firstn_app, Ht, Nat.sub_diag, firstn_O, app_nil_r.
  rewrite firstn_all2 by lia. reflexivity.
Qed.

Lemma length_pkcs7 plain :
  length (Spec.pkcs7 plain) = 16 * (length plain / 16 + 1).
Proof.
  unfold Spec.pkcs7. rewrite length_app, repeat_length.
  pose proof (Nat.div_mod_eq (length plain) 16).
  pose proof (Nat.mod_upper_bound (length plain) 16). lia.
Qed.

(** ** The run of the decipher on a padded ciphertext *)

Lemma Decipher_update_fresh ks iv data :
  Decipher_update (mkDecipher ks iv [] true) data
  = ([Decipher_update_call data],
     let n := if (length data mod 16 =? 0) then length data / 16 - 1
              else length data / 16 in
     Return (mkDecipher ks (chain_at n iv data) (skipn (16 * n) data) true,
             cbc_decrypt n ks iv data)).
Proof. reflexivity. Qed.

Lemma Decipher_update_whole ks iv data q :
  length data = 16 * (q + 1) ->
  Decipher_update (mkDecipher ks iv [] true) data
  = ([Decipher_update_call data],
     Return (mkDecipher ks (chain_at q iv data) (skipn (16 * q) data) true,
             cbc_decrypt q ks iv data)).
Proof.
  intros H. rewrite Decipher_update_fresh.
  assert (E1 : length data mod 16 = 0)
    by (rewrite H, Nat.mul_comm; apply Nat.Div0.mod_mul).
  assert (E2 : length data / 16 - 1 = q)
    by (rewrite H, Nat.mul_comm, Nat.div_mul; lia).
  rewrite E1. cbn [Nat.eqb]. cbv zeta. rewrite E2. reflexivity.
Qed.

Lemma Decipher_final_padded ks ch pend :
  length pend = 16 ->
  Decipher_final (mkDecipher ks ch pend true)
  = ([Decipher_final_call],
     match unpad (cbc_decrypt 1 ks ch pend) with
     | Some plain => Return plain
     | None => Throw ERR_OSSL_BAD_DECRYPT
     end).
Proof.
  intros H. unfold Decipher_final. cbn [auto_padding pending rks chain].
  rewrite H. cbn [Nat.eqb negb].
  destruct (unpad (cbc_decrypt 1 ks ch pend)); reflexivity.
Qed.

Lemma cbc_decrypt_ciphertext ck iv plain :
  length ck = 32 -> length iv = 16 ->
  cbc_decrypt (length plain / 16 + 1) (round_keys ck) iv (Spec.ciphertext_of ck iv plain)
  = Spec.pkcs7 plain.
Proof.
  intros Hck Hiv.
  destruct (round_keys_blocks ck Hck) as [Hks Hlen].
  assert (Hne : round_keys ck <> [])
    by (intros E; rewrite E in Hlen; discriminate).
  pose proof (length_pkcs7 plain) as Hpad.
  unfold Spec.ciphertext_of.
  rewrite cbc_decrypt_encrypt by (try assumption; lia).
  apply firstn_all2. lia.
Qed.

Lemma length_ciphertext ck iv plain :
  length ck = 32 -> length iv = 16 ->
  length (Spec.ciphertext_of ck iv plain) = 16 * (length plain / 16 + 1).
Proof.
  intros Hck Hiv.
  destruct (round_keys_blocks ck Hck) as [Hks Hlen].
  assert (Hne : round_keys ck <> [])
    by (intros E; rewrite E in Hlen; discriminate).
  pose proof (length_pkcs7 plain) as Hpad.
  unfold Spec.ciphertext_of. apply length_cbc_encrypt; try assumption. lia.
Qed.

Lemma pkcs7_split plain :
  Spec.pkcs7 plain
  = firstn (16 * (length plain / 16)) plain
    ++ (skipn (16 * (length plain / 16)) plain
        ++ repeat (byte_of_N (N.of_nat (16 - length plain mod 16)))
                  (16 - length plain mod 16)).
Proof.
  unfold Spec.pkcs7. rewrite app_assoc, firstn_skipn. reflexivity.
Qed.

Lemma app_length_inj {A} (a b c d : list A) :
  length a = length c -> a ++ b = c ++ d -> a = c /\ b = d.
Proof.
  revert c. induction a as [|x a IH]; intros [|y c] H E; try discriminate.
  - split; [reflexivity|exact E].
  - cbn in H, E. injection E as -> E. injection H as H.
    destruct (IH c H E) as [-> ->]. split; reflexivity.
Qed.

Lemma cbc_decrypt_parts ck iv plain :
  length ck = 32 -> length iv = 16 ->
  let q := length plain / 16 in
  let ct := Spec.ciphertext_of ck iv plain in
  cbc_decrypt q (round_keys ck) iv ct = firstn (16 * q) plain
  /\ cbc_decrypt 1 (round_keys ck) (chain_at q iv ct) (skipn (16 * q) ct)
     = skipn (16 * q) plain
       ++ repeat (byte_of_N (N.of_nat (16 - length plain mod 16)))
                 (16 - length plain mod 16).
Proof.
  intros Hck Hiv q ct.
  destruct (round_keys_blocks ck Hck) as [Hks Hlen].
  assert (Hne : round_keys ck <> [])
    by (intros E; rewrite E in Hlen; discriminate).
  pose proof (cbc_decrypt_ciphertext ck iv plain Hck Hiv) as Hdec.
  pose proof (length_ciphertext ck iv plain Hck Hiv) as Hct.
  rewrite cbc_decrypt_split, pkcs7_split in Hdec.
  apply app_length_inj in Hdec; [exact Hdec|].
  rewrite length_cbc_decrypt by (try assumption; lia).
  rewrite length_firstn.
  pose proof (Nat.div_mod_eq (length plain) 16). lia.
Qed.

Lemma cbc_decrypt_padded ks iv ct plain :
  blocks16 ks -> length iv = 16 -> length ct mod 16 = 0 ->
  cbc_decrypt (length ct / 16) ks iv ct = Spec.pkcs7 plain ->
  let q := length plain / 16 in
  length ct = 16 * (q + 1)
  /\ cbc_decrypt q ks iv ct = firstn (16 * q) plain
  /\ cbc_decrypt 1 ks (chain_at q iv ct) (skipn (16 * q) ct)
     = skipn (16 * q) plain
       ++ repeat (byte_of_N (N.of_nat (16 - length plain mod 16)))
                 (16 - length plain mod 16).
Proof.
  intros Hks Hiv Hmod Hdec q.
  pose proof (Nat.div_mod_eq (length ct) 16) as Hct.
  pose proof (Nat.div_mod_eq (length plain) 16) as Hpl.
  assert (Hn : length ct / 16 = q + 1).
  { apply (f_equal (@length byte)) in Hdec.
    rewrite length_cbc_decrypt, length_pkcs7 in Hdec by (try assumption; lia).
    fold q in Hdec. lia. }
  rewrite Hn in Hdec, Hct.
  split; [lia|].
  rewrite cbc_decrypt_split, pkcs7_split in Hdec.
  apply app_length_inj in Hdec; [exact Hdec|].
  rewrite length_cbc_decrypt by (try assumption; lia).
  rewrite length_firstn. fold q. lia.
Qed.

Lemma verify_then_decipher_padded iv ck ct mac plain :
  length iv = 16 -> length ck = 32 -> length ct mod 16 = 0 ->
  cbc_decrypt (length ct / 16) (round_keys ck) iv ct = Spec.pkcs7 plain ->
  verify_then_decipher (mkArrayBuffer iv) (mkArrayBuffer ck) ct mac mac
  = ([ timingSafeEqual_call mac mac;
       createDecipheriv_call "aes-256-cbc" ck iv;
       Decipher_update_call ct;
       Decipher_final_call ],
     Return plain).
Proof.
  intros Hiv Hck Hmod Hdec.
  destruct (round_keys_blocks ck Hck) as [Hks _].
  destruct (cbc_decrypt_padded _ _ _ _ Hks Hiv Hmod Hdec) as [Hct [Hout Hblk]].
  pose proof (Nat.div_mod_eq (length plain) 16) as Hpl.
  pose proof (Nat.mod_upper_bound (length plain) 16) as Hup.
  unfold verify_then_decipher, timingSafeEqual, createDecipheriv, with_bytes.
  cbn [bytes_of_value ab_bytes].
  rewrite Nat.eqb_refl, Hiv, Hck.
  replace (bytes_eqb mac mac) with true by (symmetry; now apply bytes_eqb_eq).
  cbn [Nat.eqb negb String.eqb Ascii.eqb Bool.eqb bind log ret throw app].
  unfold setAutoPadding. cbn [rks chain pending auto_padding].
  rewrite (Decipher_update_whole _ _ _ _ Hct).
  cbn [bind fst snd app].
  rewrite Decipher_final_padded by (rewrite length_skipn; lia).
  rewrite Hblk, Hout.
  rewrite unpad_padded by (try rewrite length_skipn; lia).
  cbn [bind ret app]. unfold Buffer_concat. cbn [concat].
  rewrite app_nil_r, firstn_skipn. reflexivity.
Qed.

Lemma ciphertext_of_padded ck iv plain :
  length ck = 32 -> length iv = 16 ->
  length (Spec.ciphertext_of ck iv plain) mod 16 = 0
  /\ cbc_decrypt (length (Spec.ciphertext_of ck iv plain) / 16)
       (round_keys ck) iv (Spec.ciphertext_of ck iv plain)
     = Spec.pkcs7 plain.
Proof.
  intros Hck Hiv.
  rewrite (length_ciphertext ck iv plain Hck Hiv).
  rewrite (Nat.mul_comm 16), Nat.Div0.mod_mul, Nat.div_mul by lia.
  split; [reflexivity|]. now apply cbc_decrypt_ciphertext.
Qed.

End CipherFacts.

(* ===================================================================== *)
(** * The validators and the sniffer *)
(* ===================================================================== *)

Module Validators.

Import Node CryptoUtils Base64 Base64Facts LenientFacts Run.

(** ** [validateEncryptedData] *)

Lemma validateEncryptedData_run (p : Buffer) :
  validateEncryptedData (Buf p)
  = ([], Return (negb (length p <? 10)%nat && ((length p - 10) mod 16 =? 0)%nat)).
Proof.
  unfold validateEncryptedData. cbn [ensure_buffer bind ret fst snd app].
  destruct (length p <? 10)%nat; [reflexivity|].
  destruct ((length p - 10) mod 16 =? 0)%nat; reflexivity.
Qed.

Lemma payload_format_test (p : Buffer) :
  negb (length p <? 10)%nat && ((length p - 10) mod 16 =? 0)%nat = true
  <-> Spec.payload_format p.
Proof.
  unfold Spec.payload_format. rewrite andb_true_iff, negb_true_iff.
  rewrite Nat.ltb_ge, Nat.eqb_eq. split.
  - intros [Hlen Hmod]. split; [lia|].
    replace (Z.of_nat (length p) - 10)%Z with (Z.of_nat (length p - 10)) by lia.
    change 16%Z with (Z.of_nat 16). rewrite <- Nat2Z.inj_mod. lia.
  - intros [Hlen Hmod]. split; [lia|].
    replace (Z.of_nat (length p) - 10)%Z with (Z.of_nat (length p - 10)) in Hmod by lia.
    change 16%Z with (Z.of_nat 16) in Hmod. rewrite <- Nat2Z.inj_mod in Hmod. lia.
Qed.

(** C6. For every byte sequence [p], [validateEncryptedData] returns (it
    does not throw), and it returns [true] if and only if
    [length p >= 10] and [(length p - 10) mod 16 = 0]. In particular a
    payload of 9 bytes and one of 27 bytes are rejected, and one of 26
    bytes is accepted. *)
Theorem validateEncryptedData_iff (p : Buffer) :
  (exists b, validateEncryptedData (Buf p) = ([], Return b))
  /\ (result (validateEncryptedData (Buf p)) = Return true
      <-> (10 <= Z.of_nat (length p)
           /\ (Z.of_nat (length p) - 10) mod 16 = 0)%Z)
  /\ (length p = 9 -> result (validateEncryptedData (Buf p)) = Return false)
  /\ (length p = 27 -> result (validateEncryptedData (Buf p)) = Return false)
  /\ (length p = 26 -> result (validateEncryptedData (Buf p)) = Return true).
Proof.
  rewrite validateEncryptedData_run. cbn [result snd].
  split; [eexists; reflexivity|]. split.
  - rewrite <- (payload_format_test p). split.
    + intros H. now injection H.
    + intros ->. reflexivity.
  - repeat split; intros ->; reflexivity.
Qed.

(** ** [validateMediaKey] *)

Lemma validateMediaKey_run (s : string) :
  validateMediaKey (Str s) = ([], Return (length (decode s) =? 32)%nat).
Proof. reflexivity. Qed.

Lemma validateMediaKey_total (v : value) :
  exists b, validateMediaKey v = ([], Return b).
Proof. destruct v; eexists; reflexivity. Qed.

(** C7. For every string [s], [validateMediaKey] returns [true] if and only
    if [Buffer.from(s, 'base64')] has exactly 32 bytes. In particular the
    base64 text of a key [k] is accepted exactly when [k] has 32 bytes, so
    that keys of 16 bytes, of 33 bytes and the empty key are rejected. *)
Theorem validateMediaKey_iff (s : string) (k : Buffer) :
  (result (validateMediaKey (Str s)) = Return true
   <-> length (decode s) = 32)
  /\ (result (validateMediaKey (Str s)) = Return false
      <-> length (decode s) <> 32)
  /\ result (validateMediaKey (Str (encode k))) = Return (length k =? 32)%nat
  /\ (length k = 16 \/ length k = 33 \/ length k = 0 ->
      result (validateMediaKey (Str (encode k))) = Return false).
Proof.
  rewrite !validateMediaKey_run. cbn [result snd]. rewrite decode_encode.
  repeat split.
  - intros H. injection H as H. now apply Nat.eqb_eq.
  - intros ->. reflexivity.
  - intros H. injection H as H. now apply Nat.eqb_neq.
  - intros H. apply Nat.eqb_neq in H. now rewrite H.
  - intros [-> | [-> | ->]]; reflexivity.
Qed.

Lemma validateMediaKey_data (s : string) :
  validateMediaKey (Str s)
  = ([], Return (Spec.data_before_end (low_bytes s) =? 43)%nat).
Proof.
  rewrite validateMediaKey_run, length_decode_32.
  now rewrite symbols_data_before_end.
Qed.

(** C10, counterexample. The character ['-'] is not in the base64
    alphabet, and [validateMediaKey] does not ignore it: [dashed_key] is
    accepted, the ['-'] being read as its 43rd data character, and the
    same text without the ['-'] is rejected. Likewise the character U+0141
    at the head of [stroke_key] is read as the letter A, and the text is
    accepted with it and rejected without it. *)
Lemma validateMediaKey_dash_read :
  Spec.in_alphabet "-" = false
  /\ Spec.ignore_outside dashed_key
     = "AAECAwQFBgcICQoLDA0ODxAREhMUFRYXGBkaGxwdHh="
  /\ validateMediaKey (Str dashed_key) = ([], Return true)
  /\ validateMediaKey (Str (Spec.ignore_outside dashed_key))
     = ([], Return false)
  /\ Spec.ignore_outside stroke_key
     = "AECAwQFBgcICQoLDA0ODxAREhMUFRYXGBkaGxwdHh8="
  /\ decode stroke_key = decode "AAECAwQFBgcICQoLDA0ODxAREhMUFRYXGBkaGxwdHh8="
  /\ validateMediaKey (Str stroke_key) = ([], Return true)
  /\ validateMediaKey (Str (Spec.ignore_outside stroke_key))
     = ([], Return false).
Proof. repeat apply conj; vm_compute; reflexivity. Qed.

(** C10, as amended. [validateMediaKey] returns a boolean on every
    argument and never throws, and it rejects no character of a string.
    Each character is read by the low byte of its UTF-16 code unit, an
    ASCII character as itself: a low byte that is a letter, a digit,
    ['+'], ['/'], ['-'] or ['_'] is a data character, ['='] ends the
    decoding, and any other is skipped. The result is [true] exactly when
    43 data characters come before the end of the decoding; and there is
    a string that is not canonical base64 and is accepted. *)
Theorem validateMediaKey_low_bytes (s : string) (v : value) :
  (validateMediaKey v = ([], Return true)
   \/ validateMediaKey v = ([], Return false))
  /\ validateMediaKey (Str s)
     = ([], Return (Spec.data_before_end (low_bytes s) =? 43)%nat)
  /\ (plain s = true ->
      validateMediaKey (Str s)
      = ([], Return (Spec.data_before_end s =? 43)%nat))
  /\ (~ canonical spaced_key
      /\ length (decode spaced_key) = 32
      /\ validateMediaKey (Str spaced_key) = ([], Return true)).
Proof.
  split; [|split; [|split]].
  - destruct (validateMediaKey_total v) as [[|] ->]; [now left|now right].
  - apply validateMediaKey_data.
  - intros H. rewrite validateMediaKey_data. now rewrite low_bytes_plain.
  - split; [|split; reflexivity].
    intros H. apply strip_canonical in H. discriminate H.
Qed.

(** ** [detectMimeType] *)

Lemma magic_prefix (data : Buffer) (k : Z) :
  (0 <= k <= 12)%Z ->
  slice (slice data 0 (Some 12%Z)) 0 (Some k) = firstn (Z.to_nat k) data.
Proof.
  intros Hk. rewrite !slice_prefix by lia.
  rewrite firstn_firstn. f_equal. lia.
Qed.

Lemma starts_with_length pattern data :
  Spec.starts_with pattern data = true -> length pattern <= length data.
Proof.
  unfold Spec.starts_with. intros H. apply bytes_eqb_eq in H.
  rewrite <- H at 1. rewrite length_firstn. lia.
Qed.

Lemma starts_with_app pattern rest :
  Spec.starts_with pattern (pattern ++ rest) = true.
Proof.
  unfold Spec.starts_with. apply bytes_eqb_eq.
  rewrite firstn_app, Nat.sub_diag, firstn_all. cbn [firstn]. apply app_nil_r.
Qed.

Lemma detectMimeType_table (data : Buffer) :
  detectMimeType data = Spec.first_match Spec.signature_table data.
Proof.
  unfold detectMimeType, Buffer_equals.
  rewrite (magic_prefix data 4), (magic_prefix data 8),
    (magic_prefix data 3), (magic_prefix data 2) by lia.
  change (Z.to_nat 4) with 4. change (Z.to_nat 8) with 8.
  change (Z.to_nat 3) with 3. change (Z.to_nat 2) with 2.
  unfold Spec.signature_table, Spec.first_match, Spec.starts_with.
  cbn [existsb]. rewrite !orb_false_r. reflexivity.
Qed.

Lemma first_match_none table (data : Buffer) :
  (forall patterns label pattern,
      In (patterns, label) table -> In pattern patterns ->
      Spec.starts_with pattern data = false) ->
  Spec.first_match table data = "application/octet-stream".
Proof.
  induction table as [|[patterns label] rest IH]; intros Hnone; [reflexivity|].
  cbn [Spec.first_match].
  destruct (existsb (fun p => Spec.starts_with p data) patterns) eqn:E.
  - apply existsb_exists in E. destruct E as [pattern [Hin Hp]].
    rewrite (Hnone patterns label pattern) in Hp.
    + discriminate Hp.
    + now left.
    + exact Hin.
  - apply IH. intros ps l q Hin Hq. apply (Hnone ps l q); [now right|exact Hq].
Qed.

(** C8. For every byte sequence [d], [detectMimeType] gives the label of
    the first entry of the signature table, taken in its priority order
    (jpeg, png, ogg, flac, mp4, mpeg), one of whose patterns [d] starts
    with, and ["application/octet-stream"] when there is none; a pattern
    longer than [d] does not match; the function is total. The three
    inputs named by the specification are classified as it says. *)
Theorem detectMimeType_first_match (d rest : Buffer) :
  detectMimeType d = Spec.first_match Spec.signature_table d
  /\ (forall pattern, length d < length pattern ->
                      Spec.starts_with pattern d = false)
  /\ ((forall patterns label pattern,
          In (patterns, label) Spec.signature_table -> In pattern patterns ->
          Spec.starts_with pattern d = false) ->
      detectMimeType d = "application/octet-stream")
  /\ detectMimeType ([xff; xd8; xff; xe0] ++ rest) = "image/jpeg"
  /\ detectMimeType ([x89; x50; x4e; x47; x0d; x0a; x1a; x0a] ++ rest)
     = "image/png"
  /\ detectMimeType [xde; xad; xbe; xef; x01; x02; x03] = "application/octet-stream".
Proof.
  split; [apply detectMimeType_table|]. split; [|split].
  - intros pattern Hlen.
    destruct (Spec.starts_with pattern d) eqn:E; [|reflexivity].
    apply starts_with_length in E. lia.
  - intros Hnone. rewrite detectMimeType_table.
    now apply first_match_none.
  - rewrite !detectMimeType_table. repeat split.
Qed.

End Validators.

(* ===================================================================== *)
(** * [decryptWhatsAppMedia] *)
(* ===================================================================== *)

Module Decrypt.

Import Node CryptoUtils DecryptFacts DeriveFacts CipherFacts Samples Run.

(** ** The primitives agree with their published test vectors *)

Example sha256_abc :
  SHA256.sha256 (bytes_of_string "abc")
  = [xba; x78; x16; xbf; x8f; x01; xcf; xea; x41; x41; x40; xde; x5d; xae; x22; x23;
     xb0; x03; x61; xa3; x96; x17; x7a; x9c; xb4; x10; xff; x61; xf2; x00; x15; xad].
Proof. vm_compute. reflexivity. Qed.

(** RFC 4231, test case 2. *)
Example hmac_sha256_rfc4231 :
  SHA256.hmac_sha256 (bytes_of_string "Jefe")
                     (bytes_of_string "what do ya want for nothing?")
  = [x5b; xdc; xc1; x46; xbf; x60; x75; x4e; x6a; x04; x24; x26; x08; x95; x75; xc7;
     x5a; x00; x3f; x08; x9d; x27; x39; x83; x9d; xec; x58; xb9; x64; xec; x38; x43].
Proof. vm_compute. reflexivity. Qed.

(** RFC 5869, test case 3: no salt, no info. *)
Example hkdf_sha256_rfc5869 :
  SHA256.hkdf_sha256 (repeat x0b 22) [] [] 42
  = [x8d; xa4; xe7; x75; xa5; x63; xc1; x8f; x71; x5f; x80; x2a; x06; x3c; x5a; x31;
     xb8; xa1; x1f; x5c; x5e; xe1; x87; x9e; xc3; x45; x4e; x5f; x3c; x73; x8d; x2d;
     x9d; x20; x13; x95; xfa; xa4; xb6; x1a; x96; xc8].
Proof. vm_compute. reflexivity. Qed.

(** FIPS 197, appendix C.3. *)
Example aes256_fips197 :
  AES256.decrypt_block key32
    [x8e; xa2; xb7; xca; x51; x67; x45; xbf; xea; xfc; x49; x90; x4b; x49; x60; x89]
  = [x00; x11; x22; x33; x44; x55; x66; x77; x88; x99; xaa; xbb; xcc; xdd; xee; xff].
Proof. vm_compute. reflexivity. Qed.

Lemma key32_decoded : Base64.decode key32_base64 = key32.
Proof. reflexivity. Qed.


Lemma key32_expanded :
  Spec.expanded key32 = key32_iv ++ key32_cipher_key ++ key32_mac_key ++ key32_unused.
Proof. vm_compute. reflexivity. Qed.

Lemma key32_derived :
  Spec.iv_of key32 = key32_iv
  /\ Spec.cipher_key_of key32 = key32_cipher_key
  /\ Spec.mac_key_of key32 = key32_mac_key.
Proof.
  unfold Spec.iv_of, Spec.cipher_key_of, Spec.mac_key_of.
  rewrite key32_expanded. repeat split.
Qed.

(** [hello_payload] is [hello] protected under [key32]. *)
Lemma hello_protected : Spec.protects key32 hello hello_ciphertext hello_mac.
Proof.
  unfold Spec.protects, Spec.mac_of.
  destruct key32_derived as [-> [-> ->]].
  split; vm_compute; reflexivity.
Qed.

(** ** The run on the sample key *)

Lemma calls_made_key32 :
  calls_made key32
  = [ hkdfSync_call "sha256" key32 [] (bytes_of_string "WhatsApp Media Keys") 112;
      createHmac_call "sha256" key32_mac_key;
      Hmac_update_call (ArrayBuf (mkArrayBuffer key32_iv)) ].
Proof.
  unfold calls_made, iv_slice. now destruct key32_derived as [-> [_ ->]].
Qed.

Lemma decryptWhatsAppMedia_key32 (p : Buffer) :
  decryptWhatsAppMedia (Str key32_base64) (Buf p)
  = ([ hkdfSync_call "sha256" key32 [] (bytes_of_string "WhatsApp Media Keys") 112;
       createHmac_call "sha256" key32_mac_key;
       Hmac_update_call (ArrayBuf (mkArrayBuffer key32_iv)) ],
     Throw (Error (decrypt_prefix ++ rejection_message))).
Proof.
  rewrite decryptWhatsAppMedia_run, key32_decoded, calls_made_key32.
  reflexivity.
Qed.

(** C1, at a payload that is valid. [key32_base64] is the base64 text of
    the 32-byte key [key32], and [hello_payload] is the plaintext [hello]
    protected under that key by the scheme of the specification
    (HKDF-SHA256 with no salt and the info ["WhatsApp Media Keys"],
    AES-256-CBC with PKCS#7 padding, HMAC-SHA256 of the initialization
    vector and the ciphertext cut to 10 bytes). On this input
    [decryptWhatsAppMedia] does not return [hello]: it derives the keys,
    creates the HMAC with the MAC key, and [Hmac.update] refuses the
    initialization vector, which is an [ArrayBuffer]; the [TypeError] is
    rethrown by the [catch] block. *)
Theorem decryptWhatsAppMedia_valid_payload :
  Base64.decode key32_base64 = key32
  /\ length key32 = 32
  /\ Spec.protects key32 hello hello_ciphertext hello_mac
  /\ hello_payload = hello_ciphertext ++ hello_mac
  /\ decryptWhatsAppMedia (Str key32_base64) (Buf hello_payload)
     = ([ hkdfSync_call "sha256" key32 [] (bytes_of_string "WhatsApp Media Keys") 112;
          createHmac_call "sha256" key32_mac_key;
          Hmac_update_call (ArrayBuf (mkArrayBuffer key32_iv)) ],
        Throw (Error (decrypt_prefix ++ rejection_message))).
Proof.
  split; [exact key32_decoded|]. split; [reflexivity|].
  split; [exact hello_protected|]. split; [reflexivity|].
  apply decryptWhatsAppMedia_key32.
Qed.

(** C2, at the valid payload with one bit of its MAC flipped.
    [decryptWhatsAppMedia] throws, and makes no call to the decipher; but
    it has not compared the MACs either, and what it throws is the
    rethrown [TypeError] of [Hmac.update], the same as on the valid
    payload, and not the MAC failure. *)
Theorem decryptWhatsAppMedia_flipped_mac :
  flipped_payload = hello_ciphertext ++ flipped_mac
  /\ length flipped_mac = 10
  /\ map (fun p => N.lxor (Byte.to_N (fst p)) (Byte.to_N (snd p)))
         (combine hello_mac flipped_mac)
     = [0; 0; 0; 0; 0; 0; 0; 0; 0; 1]%N
  /\ result (decryptWhatsAppMedia (Str key32_base64) (Buf flipped_payload))
     = Throw (Error (decrypt_prefix ++ rejection_message))
  /\ result (decryptWhatsAppMedia (Str key32_base64) (Buf flipped_payload))
     = result (decryptWhatsAppMedia (Str key32_base64) (Buf hello_payload))
  /\ String.eqb (decrypt_prefix ++ rejection_message)
                (decrypt_prefix ++ mac_failure) = false
  /\ calls (decryptWhatsAppMedia (Str key32_base64) (Buf flipped_payload))
     = [ hkdfSync_call "sha256" key32 [] (bytes_of_string "WhatsApp Media Keys") 112;
         createHmac_call "sha256" key32_mac_key;
         Hmac_update_call (ArrayBuf (mkArrayBuffer key32_iv)) ].
Proof.
  rewrite !decryptWhatsAppMedia_key32. repeat split.
Qed.

(** C5, for every key text and payload. What the body of
    [decryptWhatsAppMedia] throws is a [TypeError] with the code
    [ERR_INVALID_ARG_TYPE], raised by [Hmac.update]; the [catch] block
    rethrows it as a plain [Error] without a code, with the fixed prefix
    before the message. The caller gets neither a value nor one of the four
    failure kinds of the specification. *)
Theorem decryptWhatsAppMedia_failure (s : string) (p : Buffer) :
  (exists e,
      result (decrypt_body (Str s) (Buf p)) = Throw e
      /\ name e = "TypeError"
      /\ code e = "ERR_INVALID_ARG_TYPE"
      /\ message e = rejection_message
      /\ result (decryptWhatsAppMedia (Str s) (Buf p))
         = Throw (mkError "Error" "" (decrypt_prefix ++ message e)))
  /\ String.eqb rejection_message mac_failure = false.
Proof.
  split; [|reflexivity].
  exists (update_rejection (Base64.decode s)).
  rewrite decrypt_body_run, decryptWhatsAppMedia_run. repeat split.
Qed.

(** ** No check of the key length, none of the payload format *)





(** ** Further facts *)

(** X2. [decryptWhatsAppMedia] returns on no arguments at all: whatever
    the media key and the data are, a string, a [Buffer], an [ArrayBuffer]
    or [undefined], it throws a plain [Error] whose message starts with the
    prefix of the [catch] block. *)
Theorem decryptWhatsAppMedia_never_returns (mediaKey encryptedData : value) :
  exists m,
    result (decryptWhatsAppMedia mediaKey encryptedData)
    = Throw (Error (decrypt_prefix ++ m)).
Proof.
  destruct encryptedData, mediaKey; eexists; reflexivity.
Qed.

(** X3. Lines 39-53 by themselves: when the received MAC has the length
    of the computed one and differs from it, the comparison is the only
    call made, the decipher is not created, and the MAC failure is
    thrown. *)
Theorem verify_then_decipher_rejects iv cipherKey media received computed :
  length received = length computed ->
  received <> computed ->
  verify_then_decipher iv cipherKey media received computed
  = ([timingSafeEqual_call received computed], Throw (Error mac_failure)).
Proof. apply verify_then_decipher_mismatch. Qed.

Lemma verify_then_decipher_rejects_flipped :
  verify_then_decipher (mkArrayBuffer key32_iv) (mkArrayBuffer key32_cipher_key)
                       hello_ciphertext flipped_mac hello_mac
  = ([timingSafeEqual_call flipped_mac hello_mac], Throw (Error mac_failure)).
Proof.
  apply (verify_then_decipher_rejects (mkArrayBuffer key32_iv)
           (mkArrayBuffer key32_cipher_key) hello_ciphertext flipped_mac hello_mac).
  - reflexivity.
  - discriminate.
Defined.

(** X4. The [catch] block of [decryptWhatsAppMedia] keeps the message of
    what it catches and nothing else. Whatever the guarded code throws is
    rethrown as a plain [Error] with no code, so that the kind and the code
    of the error caught are lost; and two errors caught are rethrown as
    the same error exactly when their messages are equal, whatever their
    kinds and codes. *)
Theorem decrypt_catch_keeps_only_message (body body' : M Buffer)
        (e e' : error) :
  result body = Throw e ->
  result body' = Throw e' ->
  result (try_catch body decrypt_catch)
  = Throw (mkError "Error" "" (decrypt_prefix ++ message e))
  /\ (result (try_catch body decrypt_catch)
      = result (try_catch body' decrypt_catch)
      <-> message e = message e').
Proof.
  intros H H'.
  rewrite (decrypt_catch_result body e H), (decrypt_catch_result body' e' H').
  split; [reflexivity|]. split.
  - intros E. injection E as E. exact E.
  - intros ->. reflexivity.
Qed.

(** The [RangeError] of [crypto.timingSafeEqual], thrown by lines 39-53 on
    MACs of different lengths, and a [TypeError] with its message. *)
Lemma decrypt_catch_merges_kinds :
  result (try_catch
            (verify_then_decipher (mkArrayBuffer key32_iv)
               (mkArrayBuffer key32_cipher_key)
               [] short_payload hello_mac)
            decrypt_catch)
  = Throw (mkError "Error" ""
             (decrypt_prefix ++ message ERR_CRYPTO_TIMING_SAFE_EQUAL_LENGTH))
  /\ (result (try_catch
                (verify_then_decipher (mkArrayBuffer key32_iv)
                   (mkArrayBuffer key32_cipher_key)
                   [] short_payload hello_mac)
                decrypt_catch)
      = result (try_catch
                  (throw (mkError "TypeError" "ERR_INVALID_ARG_TYPE"
                            "Input buffers must have the same byte length"))
                  decrypt_catch)
      <-> message ERR_CRYPTO_TIMING_SAFE_EQUAL_LENGTH
          = message (mkError "TypeError" "ERR_INVALID_ARG_TYPE"
                       "Input buffers must have the same byte length")).
Proof.
  apply (decrypt_catch_keeps_only_message
           (verify_then_decipher (mkArrayBuffer key32_iv)
              (mkArrayBuffer key32_cipher_key)
              [] short_payload hello_mac)
           (throw (mkError "TypeError" "ERR_INVALID_ARG_TYPE"
                     "Input buffers must have the same byte length"))
           ERR_CRYPTO_TIMING_SAFE_EQUAL_LENGTH
           (mkError "TypeError" "ERR_INVALID_ARG_TYPE"
              "Input buffers must have the same byte length")).
  - reflexivity.
  - reflexivity.
Defined.



(** X6. Every plaintext has a payload that lines 39-53 accept. For a
    32-byte cipher key and a 16-byte initialization vector, the
    CBC encryption of the padded plaintext is made of whole blocks, the
    inverse cipher of the model takes it back to the padded plaintext, and
    lines 39-53 return the plaintext on it. *)
Theorem verify_then_decipher_round_trip ck iv plain mac :
  length ck = 32 -> length iv = 16 ->
  length (Spec.ciphertext_of ck iv plain) mod 16 = 0
  /\ AES256.cbc_decrypt (length (Spec.ciphertext_of ck iv plain) / 16)
       (AES256.round_keys ck) iv (Spec.ciphertext_of ck iv plain)
     = Spec.pkcs7 plain
  /\ verify_then_decipher (mkArrayBuffer iv) (mkArrayBuffer ck)
       (Spec.ciphertext_of ck iv plain) mac mac
     = ([ timingSafeEqual_call mac mac;
          createDecipheriv_call "aes-256-cbc" ck iv;
          Decipher_update_call (Spec.ciphertext_of ck iv plain);
          Decipher_final_call ],
        Return plain).
Proof.
  intros Hck Hiv.
  destruct (ciphertext_of_padded ck iv plain Hck Hiv) as [Hmod Hdec].
  repeat split; try assumption.
  now apply verify_then_decipher_padded.
Qed.

Lemma verify_then_decipher_round_trip_hello :
  length (Spec.ciphertext_of key32_cipher_key key32_iv hello) mod 16 = 0
  /\ AES256.cbc_decrypt
       (length (Spec.ciphertext_of key32_cipher_key key32_iv hello) / 16)
       (AES256.round_keys key32_cipher_key) key32_iv
       (Spec.ciphertext_of key32_cipher_key key32_iv hello)
     = Spec.pkcs7 hello
  /\ verify_then_decipher (mkArrayBuffer key32_iv)
       (mkArrayBuffer key32_cipher_key)
       (Spec.ciphertext_of key32_cipher_key key32_iv hello) hello_mac hello_mac
     = ([ timingSafeEqual_call hello_mac hello_mac;
          createDecipheriv_call "aes-256-cbc" key32_cipher_key key32_iv;
          Decipher_update_call
            (Spec.ciphertext_of key32_cipher_key key32_iv hello);
          Decipher_final_call ],
        Return hello).
Proof.
  apply (verify_then_decipher_round_trip key32_cipher_key key32_iv hello
           hello_mac).
  - reflexivity.
  - reflexivity.
Defined.

(** The sample ciphertext is the one the scheme produces for [hello]. *)
Example ciphertext_of_hello :
  Spec.ciphertext_of key32_cipher_key key32_iv hello = hello_ciphertext.
Proof. vm_compute. reflexivity. Qed.

End Decrypt.

(* ===================================================================== *)
(** * The digest checks *)
(* ===================================================================== *)

Module Digests.

Import Node CryptoUtils Base64Facts.

Lemma verifyFileSha256_run (d : Buffer) (e : string) :
  verifyFileSha256 (Buf d) (Str e)
  = ([createHash_call "sha256"; Hash_update_call (Buf d); Hash_digest_call],
     Return (String.eqb (Base64.encode (SHA256.sha256 d)) e)).
Proof. reflexivity. Qed.

Lemma verifyEncryptedFileSha256_run (d : Buffer) (e : string) :
  verifyEncryptedFileSha256 (Buf d) (Str e)
  = ([createHash_call "sha256"; Hash_update_call (Buf d); Hash_digest_call],
     Return (String.eqb (Base64.encode (SHA256.sha256 d)) e)).
Proof. reflexivity. Qed.

Lemma return_eqb_iff (a b : string) :
  (Return (String.eqb a b) = Return true <-> a = b)
  /\ (Return (String.eqb a b) = Return false <-> a <> b).
Proof.
  destruct (String.eqb_spec a b) as [E|E]; split; split;
    try discriminate; try reflexivity; intros H; try contradiction; congruence.
Qed.

(** X1. [verifyFileSha256] and [verifyEncryptedFileSha256] return, for every
    byte sequence [d] and every string [e]; each returns [true] if and
    only if the base64 text of the SHA-256 digest of [d] is the string [e],
    and so, given the digest of [d], returns [false] on any other data
    [d'] exactly when the digest of [d'] is another one. *)
Theorem verify_digest_iff (d d' : Buffer) (e : string) :
  (result (verifyFileSha256 (Buf d) (Str e)) = Return true
   <-> Base64.encode (SHA256.sha256 d) = e)
  /\ (result (verifyFileSha256 (Buf d) (Str e)) = Return false
      <-> Base64.encode (SHA256.sha256 d) <> e)
  /\ (result (verifyEncryptedFileSha256 (Buf d) (Str e)) = Return true
      <-> Base64.encode (SHA256.sha256 d) = e)
  /\ (result (verifyEncryptedFileSha256 (Buf d) (Str e)) = Return false
      <-> Base64.encode (SHA256.sha256 d) <> e)
  /\ result (verifyFileSha256 (Buf d) (Str (Base64.encode (SHA256.sha256 d))))
     = Return true
  /\ (result (verifyFileSha256 (Buf d') (Str (Base64.encode (SHA256.sha256 d))))
      = Return false
      <-> SHA256.sha256 d' <> SHA256.sha256 d).
Proof.
  rewrite !verifyFileSha256_run, ?verifyEncryptedFileSha256_run.
  cbn [result snd].
  destruct (return_eqb_iff (Base64.encode (SHA256.sha256 d)) e) as [Ht Hf].
  repeat split; try apply Ht; try apply Hf.
  - now rewrite String.eqb_refl.
  - intros H E. apply return_eqb_iff in H. apply H. now rewrite E.
  - intros H. apply return_eqb_iff. intros E. now apply H, encode_injective.
Qed.

Example verifyFileSha256_abc :
  result (verifyFileSha256 (Buf (bytes_of_string "abc"))
                           (Str "ungWv48Bz+pBQUDeXa4iI7ADYaOWF3qctBD/YfIAFa0="))
  = Return true
  /\ result (verifyFileSha256 (Buf (bytes_of_string "abd"))
                              (Str "ungWv48Bz+pBQUDeXa4iI7ADYaOWF3qctBD/YfIAFa0="))
     = Return false.
Proof. vm_compute. split; reflexivity. Qed.

End Digests.
